(** * spack.cmd.common.arguments: the shared command-line argument registry

    A shallow embedding of [lib/spack/spack/cmd/common/arguments.py]:
    the registry [_arguments] filled by the [@arg] decorator,
    [add_common_arguments], and the three argparse actions
    [ConstraintAction], [SetParallelJobs] and [DeptypeAction].

    The collaborators the module only calls (argparse's parser, the
    configuration system, the spec parser, the installed-package database,
    the active environment, [multiprocessing.cpu_count] and the
    dependency-type vocabulary) are interfaces here: type classes or
    Section variables, with small executable instances at the end of each
    part that are used to run the code on concrete inputs. *)

From stdpp Require Import gmap strings list sorting.
From Stdlib Require Import ZArith Lia DecimalString.

#[local] Set Warnings "-clear-no-such-hyp".

Local Open Scope string_scope.
Local Open Scope list_scope.
Local Open Scope Z_scope.

(** ** Python values shared by all parts *)

(** The double quote character, for the messages that quote a value. *)
Definition dq : string := String (Ascii.ascii_of_nat 34) EmptyString.

(** [str(n)] for an integer, as [str.format] renders it. *)
Definition str_of_int (n : Z) : string :=
  NilZero.string_of_int (Z.to_int n).

(** The collaborators whose exceptions this module lets through. *)
Inductive Collaborator :=
  | Argparse          (* parser.add_argument *)
  | SpecParser        (* spack.cmd.parse_specs: SpecParseError *)
  | DeptypeVocabulary (* dep.canonical_deptype *).

(** Exceptions, told apart by where they are raised.  [KeyError] and
    [ValueError] are the two [raise] statements of the module itself (the
    unknown-argument error and the invalid-job-count error);
    [AttributeError] is Python's own error for reading an attribute that was
    never assigned; [Propagated] is an exception raised inside a
    collaborator and not caught here. *)
Inductive Exception :=
  | KeyError (message : string)
  | ValueError (message : string)
  | AttributeError (attribute : string)
  | Propagated (origin : Collaborator) (payload : string).

(** How a call ends. *)
Inductive outcome (A : Type) :=
  | Returned (a : A)
  | Raised (e : Exception).
Arguments Returned {A} a.
Arguments Raised {A} e.

(** Python code over mutable objects: the objects reachable from the call
    are the state [S]; an exception keeps every mutation made before it. *)
Definition Py (S A : Type) : Type := S → outcome A * S.

Definition ret {S A} (a : A) : Py S A := λ s, (Returned a, s).
Definition raise {S A} (e : Exception) : Py S A := λ s, (Raised e, s).
Definition bind {S A B} (m : Py S A) (k : A → Py S B) : Py S B :=
  λ s, match m s with
       | (Returned a, s') => k a s'
       | (Raised e, s') => (Raised e, s')
       end.
Definition get_state {S} : Py S S := λ s, (Returned s, s).
Definition modify {S} (f : S → S) : Py S unit := λ s, (Returned tt, f s).

Notation "'let!' x ':=' m 'in' k" := (bind m (λ x, k))
  (at level 10, x pattern, m at level 100, k at level 200, only parsing).
Notation "'do!' m 'in' k" := (bind m (λ _, k))
  (at level 10, m at level 100, k at level 200, only parsing).

(** What the actions leave on the [argparse.Namespace]. *)
Inductive NsValue :=
  | NsTokens (tokens : list string)  (* the raw constraint tokens *)
  | NsBoundSpecs                     (* the bound method [self._specs] *)
  | NsInt (n : Z)
  | NsDeptype (t : list string).     (* a tuple of dependency types *)

(** ** Python containers used by the module *)

(** A [dict] in insertion order: assigning to a key that is present keeps
    its position, a new key goes last. *)
Fixpoint dict_set {K V} `{EqDecision K} (k : K) (v : V)
    (d : list (K * V)) : list (K * V) :=
  match d with
  | [] => [(k, v)]
  | (k', v') :: rest =>
      if decide (k = k') then (k, v) :: rest
      else (k', v') :: dict_set k v rest
  end.

Definition dict_values {K V} (d : list (K * V)) : list V := d.*2.

(** [sorted(l)] through the elements' [<] only.  Python's sort is stable;
    this is the stable insertion sort, which returns the same list whenever
    [<] is an ordering. *)
Fixpoint insert_sorted {A} (lt : A → A → bool) (x : A) (l : list A) : list A :=
  match l with
  | [] => [x]
  | y :: rest => if lt x y then x :: y :: rest else y :: insert_sorted lt x rest
  end.

Definition sorted {A} (lt : A → A → bool) (l : list A) : list A :=
  foldl (λ acc x, insert_sorted lt x acc) [] l.

(** ** Argument bunches: [spack.util.pattern.Args] *)

Inductive ActionKind :=
  | store_true | store_false | append
  | ConstraintAction_cls | SetParallelJobs_cls | DeptypeAction_cls.

Inductive NargsKind := REMAINDER | one_or_more.

(** The values the builders pass as keyword arguments. *)
Inductive KwArg :=
  | KStr (s : string)
  | KAction (a : ActionKind)
  | KNargs (n : NargsKind)
  | KTypeInt
  | KBool (b : bool)
  | KConfigBool (b : option bool)  (* what spack.config.get returned *)
  | KTuple (t : list string).

Record Args := mkArgs {
  flags : list string;
  kwargs : list (string * KwArg)
}.

(** ** Interfaces of the collaborators *)

(** The configuration system, [spack.config].  ['config:build_jobs'] holds
    an integer and ['config:dirty'] a boolean (or nothing), as the
    configuration schema has them. *)
Class ConfigSystem (Config : Type) := {
  config_get_int : Config → string → Z → Z;
  config_get_bool : Config → string → option bool;
  config_set_int : Config → string → Z → string → Config
}.

(** Anything with an [add_argument] method.  A rejected argument (argparse
    raises on a conflicting option string, for one) leaves the parser as it
    was. *)
Class ArgumentContainer (Parser : Type) := {
  add_argument : Parser → Args → string + Parser
}.

(** ** The registry and [add_common_arguments] *)

Module Registry.

(** What a builder reads when it is called: the configuration (for
    [spack.config.get('config:dirty')]) and [dep.all_deptypes]. *)
Record BuildEnv (Config : Type) := mkBuildEnv {
  be_config : Config;
  be_all_deptypes : list string
}.
Arguments mkBuildEnv {Config}.
Arguments be_config {Config}.
Arguments be_all_deptypes {Config}.

Section registry.
Context {Config : Type} `{!ConfigSystem Config}.

(** An argument-generating function: called with no arguments, it reads
    the collaborators of the moment. *)
Definition Builder : Type := BuildEnv Config → Args.

(** [arg(fn)]: [_arguments[fn.__name__] = fn]. *)
Definition arg (name : string) (fn : Builder)
    (_arguments : gmap string Builder) : gmap string Builder :=
  <[name := fn]> _arguments.

(** [','.join(l)]. *)
Fixpoint join (sep : string) (l : list string) : string :=
  match l with
  | [] => EmptyString
  | [x] => x
  | x :: rest => x +:+ sep +:+ join sep rest
  end.

Definition nl : string := String (Ascii.ascii_of_nat 10) EmptyString.

Definition constraint : Builder := λ _,
  mkArgs ["constraint"]
    [("nargs", KNargs REMAINDER); ("action", KAction ConstraintAction_cls);
     ("help", KStr "constraint to select a subset of installed packages");
     ("metavar", KStr "installed_specs")].

Definition package : Builder := λ _,
  mkArgs ["package"] [("help", KStr "package name")].

Definition packages : Builder := λ _,
  mkArgs ["packages"]
    [("nargs", KNargs one_or_more); ("help", KStr "one or more package names");
     ("metavar", KStr "package")].

Definition spec : Builder := λ _,
  mkArgs ["spec"] [("nargs", KNargs REMAINDER); ("help", KStr "package spec")].

Definition specs : Builder := λ _,
  mkArgs ["specs"]
    [("nargs", KNargs REMAINDER); ("help", KStr "one or more package specs")].

Definition installed_spec : Builder := λ _,
  mkArgs ["spec"]
    [("nargs", KNargs REMAINDER); ("help", KStr "installed package spec");
     ("metavar", KStr "installed_spec")].

Definition installed_specs : Builder := λ _,
  mkArgs ["specs"]
    [("nargs", KNargs REMAINDER);
     ("help", KStr "one or more installed package specs");
     ("metavar", KStr "installed_specs")].

Definition yes_to_all : Builder := λ _,
  mkArgs ["-y"; "--yes-to-all"]
    [("action", KAction store_true); ("dest", KStr "yes_to_all");
     ("help", KStr ("assume " +:+ dq +:+ "yes" +:+ dq +:+
                    " is the answer to every confirmation request" +:+ nl +:+
                    "excluding --no-checksum."))].

Definition recurse_dependencies : Builder := λ _,
  mkArgs ["-r"; "--dependencies"]
    [("action", KAction store_true); ("dest", KStr "recurse_dependencies");
     ("help", KStr "recursively traverse spec dependencies")].

Definition recurse_dependents : Builder := λ _,
  mkArgs ["-R"; "--dependents"]
    [("action", KAction store_true); ("dest", KStr "dependents");
     ("help", KStr ("also uninstall any packages that depend on the ones given "
                    +:+ "via command line"))].

Definition clean : Builder := λ e,
  mkArgs ["--clean"]
    [("action", KAction store_false);
     ("default", KConfigBool (config_get_bool (be_config e) "config:dirty"));
     ("dest", KStr "dirty");
     ("help", KStr "unset harmful variables in the build environment (default)")].

Definition deptype : Builder := λ e,
  mkArgs ["--deptype"]
    [("action", KAction DeptypeAction_cls);
     ("default", KTuple (be_all_deptypes e));
     ("help", KStr ("comma-separated list of deptypes to traverse" +:+ nl +:+
                    "default=" +:+ join "," (be_all_deptypes e)))].

Definition dirty : Builder := λ e,
  mkArgs ["--dirty"]
    [("action", KAction store_true);
     ("default", KConfigBool (config_get_bool (be_config e) "config:dirty"));
     ("dest", KStr "dirty");
     ("help", KStr "preserve user environment in spack's build environment (danger!)")].

Definition long : Builder := λ _,
  mkArgs ["-l"; "--long"]
    [("action", KAction store_true);
     ("help", KStr "show dependency hashes as well as versions")].

Definition very_long : Builder := λ _,
  mkArgs ["-L"; "--very-long"]
    [("action", KAction store_true);
     ("help", KStr "show full dependency hashes as well as versions")].

Definition tags : Builder := λ _,
  mkArgs ["-t"; "--tags"]
    [("action", KAction append); ("help", KStr "filter a package query by tags")].

Definition jobs : Builder := λ _,
  mkArgs ["-j"; "--jobs"]
    [("action", KAction SetParallelJobs_cls); ("type", KTypeInt);
     ("dest", KStr "jobs");
     ("help", KStr "explicitly set number of parallel jobs")].

Definition install_status : Builder := λ _,
  mkArgs ["-I"; "--install-status"]
    [("action", KAction store_true); ("default", KBool false);
     ("help", KStr ("show install status of packages. packages can be: " +:+
                    "installed [+], missing and needed by an installed package [-], "
                    +:+ "or not installed (no annotation)"))].

Definition no_checksum : Builder := λ _,
  mkArgs ["-n"; "--no-checksum"]
    [("action", KAction store_true); ("default", KBool false);
     ("help", KStr "do not use checksums to verify downloaded files (unsafe)")].

(** The module-level dictionary after the module body has run: every [@arg]
    in source order, starting from [{}]. *)
Definition _arguments : gmap string Builder :=
  arg "no_checksum" no_checksum
  (arg "install_status" install_status
  (arg "jobs" jobs
  (arg "tags" tags
  (arg "very_long" very_long
  (arg "long" long
  (arg "dirty" dirty
  (arg "deptype" deptype
  (arg "clean" clean
  (arg "recurse_dependents" recurse_dependents
  (arg "recurse_dependencies" recurse_dependencies
  (arg "yes_to_all" yes_to_all
  (arg "installed_specs" installed_specs
  (arg "installed_spec" installed_spec
  (arg "specs" specs
  (arg "spec" spec
  (arg "packages" packages
  (arg "package" package
  (arg "constraint" constraint ∅)))))))))))))))))).

(** The message of the [KeyError]:
    ['Trying to add non existing argument "{0}" to a command'.format(argument)]. *)
Definition unknown_argument_message (argument : string) : string :=
  "Trying to add non existing argument " +:+ dq +:+ argument +:+ dq +:+
  " to a command".

Context {Parser : Type} `{!ArgumentContainer Parser}.

(** [parser.add_argument( *x.flags, **x.kwargs)] on the parser object. *)
Definition parser_add_argument (x : Args) : Py Parser unit :=
  λ parser, match add_argument parser x with
            | inl payload => (Raised (Propagated Argparse payload), parser)
            | inr parser' => (Returned tt, parser')
            end.

(** [add_common_arguments(parser, list_of_arguments)], over a registry
    [registry] (the module uses [_arguments]) and the collaborators [e] the
    builders read. *)
Fixpoint add_common_arguments (registry : gmap string Builder)
    (e : BuildEnv Config) (list_of_arguments : list string) : Py Parser unit :=
  match list_of_arguments with
  | [] => ret tt
  | argument :: rest =>
      match registry !! argument with
      | None => raise (KeyError (unknown_argument_message argument))
      | Some fn =>
          let x := fn e in
          do! parser_add_argument x in
          add_common_arguments registry e rest
      end
  end.

(** The bunches the builders of [names] produce, in order; a name without
    a builder contributes nothing. *)
Definition built (registry : gmap string Builder) (e : BuildEnv Config)
    (names : list string) : list Args :=
  omap (λ name, (λ fn : Builder, fn e) <$> registry !! name) names.

(** The parser after [add_argument] of each bunch in turn, or the payload
    of the first refusal. *)
Fixpoint add_all (parser : Parser) (xs : list Args) : string + Parser :=
  match xs with
  | [] => inr parser
  | x :: rest =>
      match add_argument parser x with
      | inr parser' => add_all parser' rest
      | inl payload => inl payload
      end
  end.

End registry.
End Registry.

(** ** [ConstraintAction] *)

Module Constraint.

(** A filter passed to [db.query] by keyword.  ['hashes'] carries a set of
    hashes; the other filters ([installed], [explicit], ...) are opaque. *)
Inductive Filter (Hash : Type) `{Countable Hash} :=
  | FHashes (hashes : gset Hash)
  | FOther (value : string).
Arguments FHashes {Hash _ _} hashes.
Arguments FOther {Hash _ _} value.

Section constraint.
(** The spec parser, the database, the environment and the installed specs
    with their hash and their [<]. *)
Context {QSpec Pkg Hash DB Env : Type} `{Countable Hash}.
Variable parse_specs : list string → string + list QSpec.
Variable db_query : DB → option QSpec → gmap string (Filter Hash) → list Pkg.
Variable all_hashes : Env → list Hash.
Variable dag_hash : Pkg → Hash.
Variable spec_lt : Pkg → Pkg → bool.

(** Calls that leave the module, in the order they are made. *)
Inductive Call :=
  | CallParseSpecs (tokens : list string)
  | CallQuery (query_spec : option QSpec) (filters : gmap string (Filter Hash)).

(** The objects a [ConstraintAction] works on: its own attribute [values]
    (unset until the action fires), the namespace, the module global
    [ev._active_environment] and [spack.store.db]; [calls] records the calls
    to the spec parser and to the database. *)
Record State := mkState {
  self_values : option (list string);
  namespace : gmap string NsValue;
  _active_environment : option Env;
  db : DB;
  calls : list Call
}.

Definition set_self_values (v : list string) (st : State) : State :=
  mkState (Some v) (namespace st) (_active_environment st) (db st) (calls st).
Definition set_namespace (k : string) (v : NsValue) (st : State) : State :=
  mkState (self_values st) (<[k := v]> (namespace st))
          (_active_environment st) (db st) (calls st).
Definition log_calls (cs : list Call) (st : State) : State :=
  mkState (self_values st) (namespace st) (_active_environment st) (db st)
          (calls st ++ cs).
Definition log_call (c : Call) (st : State) : State := log_calls [c] st.

(** [ConstraintAction.__call__(self, parser, namespace, values)]. *)
Definition __call__ (values : list string) : Py State unit :=
  do! modify (set_self_values values) in
  do! modify (set_namespace "constraint" (NsTokens values)) in
  modify (set_namespace "specs" NsBoundSpecs).

(** [self.values], an [AttributeError] while it was never assigned. *)
Definition read_self_values : Py State (list string) :=
  λ st, match self_values st with
        | Some v => (Returned v, st)
        | None => (Raised (AttributeError "values"), st)
        end.

(** [spack.cmd.parse_specs(tokens)]. *)
Definition call_parse_specs (tokens : list string) : Py State (list QSpec) :=
  λ st, match parse_specs tokens with
        | inr qspecs => (Returned qspecs, log_call (CallParseSpecs tokens) st)
        | inl payload =>
            (Raised (Propagated SpecParser payload),
             log_call (CallParseSpecs tokens) st)
        end.

(** [spack.store.db.query(query_spec, **kwargs)]; [None] is a call without
    the positional argument. *)
Definition call_query (query_spec : option QSpec)
    (kwargs : gmap string (Filter Hash)) : Py State (list Pkg) :=
  λ st, (Returned (db_query (db st) query_spec kwargs),
         log_call (CallQuery query_spec kwargs) st).

(** The keyword arguments after
    [if env: kwargs['hashes'] = set(env.all_hashes())]. *)
Definition env_kwargs (env : option Env)
    (kwargs : gmap string (Filter Hash)) : gmap string (Filter Hash) :=
  match env with
  | Some e => <["hashes" := FHashes (list_to_set (all_hashes e))]> kwargs
  | None => kwargs
  end.

(** The inner loop: [for s in results: specs[s.dag_hash()] = s]. *)
Definition store_matches (specs : list (Hash * Pkg)) (results : list Pkg)
    : list (Hash * Pkg) :=
  foldl (λ d s, dict_set (dag_hash s) s d) specs results.

(** The outer loop: [for spec in qspecs: for s in db.query(spec, **kwargs)]. *)
Fixpoint query_each (qspecs : list QSpec) (kwargs : gmap string (Filter Hash))
    (specs : list (Hash * Pkg)) : Py State (list (Hash * Pkg)) :=
  match qspecs with
  | [] => ret specs
  | spec :: rest =>
      let! results := call_query (Some spec) kwargs in
      query_each rest kwargs (store_matches specs results)
  end.

(** What the two loops leave in [specs], as a function of the database. *)
Definition matches_by_hash (database : DB) (qspecs : list QSpec)
    (kwargs : gmap string (Filter Hash)) (specs : list (Hash * Pkg))
    : list (Hash * Pkg) :=
  foldl (λ d q, store_matches d (db_query database (Some q) kwargs))
        specs qspecs.

(** [ConstraintAction._specs(self, **kwargs)], the callable left under
    [namespace.specs]. *)
Definition _specs (kwargs : gmap string (Filter Hash)) : Py State (list Pkg) :=
  let! values := read_self_values in
  let! qspecs := call_parse_specs values in
  let! st := get_state in
  let kwargs := env_kwargs (_active_environment st) kwargs in
  match qspecs with
  | [] => call_query None kwargs
  | _ :: _ =>
      let! specs := query_each qspecs kwargs [] in
      ret (sorted spec_lt (dict_values specs))
  end.

End constraint.

Arguments Call QSpec Hash {_ _}.
Arguments State QSpec Hash DB Env {_ _}.
End Constraint.

(** ** [SetParallelJobs] *)

Module Jobs.

Section jobs.
Context {Config : Type} `{!ConfigSystem Config}.

(** What the action reaches: the configuration, the namespace, and what
    [multiprocessing.cpu_count()] answers at the moment. *)
Record State := mkState {
  config : Config;
  namespace : gmap string NsValue;
  cpu_count : Z
}.

(** The message of the [ValueError]:
    ['invalid value for argument "{0}" [expected a positive integer, got "{1}"]'
     .format(option_string, jobs)]. *)
Definition invalid_jobs_message (option_string : string) (jobs : Z) : string :=
  "invalid value for argument " +:+ dq +:+ option_string +:+ dq +:+
  " [expected a positive integer, got " +:+ dq +:+ str_of_int jobs +:+ dq +:+ "]".

Definition call_cpu_count : Py State Z := λ st, (Returned (cpu_count st), st).

(** [spack.config.set(path, value, scope=scope)]. *)
Definition spack_config_set (path : string) (value : Z) (scope : string)
    : Py State unit :=
  modify (λ st, mkState (config_set_int (config st) path value scope)
                        (namespace st) (cpu_count st)).

(** [spack.config.get(path, default)]. *)
Definition spack_config_get (path : string) (default : Z) : Py State Z :=
  λ st, (Returned (config_get_int (config st) path default), st).

Definition setattr (name : string) (v : NsValue) : Py State unit :=
  modify (λ st, mkState (config st) (<[name := v]> (namespace st))
                        (cpu_count st)).

(** [SetParallelJobs.__call__(self, parser, namespace, jobs, option_string)];
    [jobs] is already an integer. *)
Definition __call__ (jobs : Z) (option_string : string) : Py State unit :=
  if jobs <? 1 then
    raise (ValueError (invalid_jobs_message option_string jobs))
  else
    let! n := call_cpu_count in
    let jobs := Z.min jobs n in
    do! spack_config_set "config:build_jobs" jobs "command_line" in
    setattr "jobs" (NsInt jobs).

(** The property [default]: its getter ... *)
Definition default : Py State Z :=
  let! configured := spack_config_get "config:build_jobs" 16 in
  let! n := call_cpu_count in
  ret (Z.min configured n).

(** ... and its setter, whose body is [pass]. *)
Definition default_setter (value : Z) : Py State unit := ret tt.

End jobs.
End Jobs.

(** ** [DeptypeAction] *)

Module Deptype.

(** A Python 3 [str] is held as its UTF-8 encoding, one [ascii] per byte.
    [c.isspace()] is true of 25 characters; here they are by the length of
    their encoding.  One byte: tab to carriage return, the four separators
    28 to 31, and the space. *)
Definition is_space (c : Ascii.ascii) : bool :=
  let n := Ascii.nat_of_ascii c in
  ((9 <=? n)%nat && (n <=? 13)%nat) || ((28 <=? n)%nat && (n <=? 32)%nat).

(** Two bytes: U+0085 (C2 85) and U+00A0 (C2 A0). *)
Definition is_space2 (c1 c2 : Ascii.ascii) : bool :=
  let n1 := Ascii.nat_of_ascii c1 in
  let n2 := Ascii.nat_of_ascii c2 in
  (n1 =? 194)%nat && ((n2 =? 133)%nat || (n2 =? 160)%nat).

(** Three bytes: U+1680 (E1 9A 80), U+2000 to U+200A (E2 80 80 to
    E2 80 8A), U+2028, U+2029 and U+202F (E2 80 A8, A9, AF), U+205F
    (E2 81 9F) and U+3000 (E3 80 80). *)
Definition is_space3 (c1 c2 c3 : Ascii.ascii) : bool :=
  let n1 := Ascii.nat_of_ascii c1 in
  let n2 := Ascii.nat_of_ascii c2 in
  let n3 := Ascii.nat_of_ascii c3 in
  ((n1 =? 225)%nat && (n2 =? 154)%nat && (n3 =? 128)%nat)
  || ((n1 =? 226)%nat && (n2 =? 128)%nat &&
      (((128 <=? n3)%nat && (n3 <=? 138)%nat)
       || (n3 =? 168)%nat || (n3 =? 169)%nat || (n3 =? 175)%nat))
  || ((n1 =? 226)%nat && (n2 =? 129)%nat && (n3 =? 159)%nat)
  || ((n1 =? 227)%nat && (n2 =? 128)%nat && (n3 =? 128)%nat).

(** The string after one leading whitespace character, if there is one. *)
Definition space_prefix (s : string) : option string :=
  match s with
  | EmptyString => None
  | String c1 r1 =>
      if is_space c1 then Some r1
      else match r1 with
           | String c2 r2 =>
               if is_space2 c1 c2 then Some r2
               else match r2 with
                    | String c3 r3 =>
                        if is_space3 c1 c2 c3 then Some r3 else None
                    | EmptyString => None
                    end
           | EmptyString => None
           end
  end.

(** [s.lstrip()]: leading whitespace characters are dropped one by one. *)
Fixpoint lstrip (s : string) : string :=
  match s with
  | EmptyString => EmptyString
  | String c1 r1 =>
      if is_space c1 then lstrip r1
      else match r1 with
           | String c2 r2 =>
               if is_space2 c1 c2 then lstrip r2
               else match r2 with
                    | String c3 r3 =>
                        if is_space3 c1 c2 c3 then lstrip r3 else s
                    | EmptyString => s
                    end
           | EmptyString => s
           end
  end.

(** The string is made of whitespace characters only. *)
Definition all_space (s : string) : bool :=
  bool_decide (lstrip s = EmptyString).

(** [s.rstrip()]: the longest tail made of whitespace only is dropped. *)
Fixpoint rstrip (s : string) : string :=
  match s with
  | EmptyString => EmptyString
  | String c rest =>
      if all_space (String c rest) then EmptyString
      else String c (rstrip rest)
  end.

(** [s.strip()]. *)
Definition strip (s : string) : string := rstrip (lstrip s).

(** Predicates to state what [strip] and [split] do: the string begins
    with a whitespace character; some non-empty tail of it is whitespace
    only. *)
Definition starts_with_space (s : string) : bool :=
  match space_prefix s with
  | Some _ => true
  | None => false
  end.

Fixpoint ends_with_space (s : string) : bool :=
  match s with
  | EmptyString => false
  | String c rest => all_space (String c rest) || ends_with_space rest
  end.

Fixpoint contains (sep : Ascii.ascii) (s : string) : bool :=
  match s with
  | EmptyString => false
  | String c rest => bool_decide (c = sep) || contains sep rest
  end.

(** [s.split(sep)] for a one-character separator: always at least one
    piece, empty pieces kept. *)
Fixpoint split (sep : Ascii.ascii) (s : string) : list string :=
  match s with
  | EmptyString => [EmptyString]
  | String c rest =>
      if decide (c = sep) then EmptyString :: split sep rest
      else match split sep rest with
           | piece :: pieces => String c piece :: pieces
           | [] => [String c EmptyString]
           end
  end.

Definition comma : Ascii.ascii := Ascii.ascii_of_nat 44.

(** What [dep.canonical_deptype] is called with: the string ['all'] or a
    tuple of tokens. *)
Inductive DeptypeArg :=
  | DStr (s : string)
  | DTuple (t : list string).

Global Instance DeptypeArg_eq_dec : EqDecision DeptypeArg.
Proof. solve_decision. Defined.

Section deptype.
(** [dep.all_deptypes] and [dep.canonical_deptype]. *)
Variable all_deptypes : list string.
Variable canonical_deptype : DeptypeArg → string + list string.

(** The namespace, and the calls made to the canonicalizer. *)
Record State := mkState {
  namespace : gmap string NsValue;
  canonicalizer_calls : list DeptypeArg
}.

Definition call_canonical_deptype (a : DeptypeArg) : Py State (list string) :=
  λ st, let st' := mkState (namespace st) (canonicalizer_calls st ++ [a]) in
        match canonical_deptype a with
        | inr t => (Returned t, st')
        | inl payload => (Raised (Propagated DeptypeVocabulary payload), st')
        end.

Definition setattr (name : string) (v : NsValue) : Py State unit :=
  modify (λ st, mkState (<[name := v]> (namespace st)) (canonicalizer_calls st)).

(** [tuple(x.strip() for x in values.split(','))]. *)
Definition tokens_of (values : string) : list string :=
  strip <$> split comma values.

(** [if deptype == ('all',): deptype = 'all']. *)
Definition all_or_tuple (tokens : list string) : DeptypeArg :=
  if decide (tokens = ["all"]) then DStr "all" else DTuple tokens.

(** [DeptypeAction.__call__(self, parser, namespace, values)] for an action
    whose [self.dest] is [dest].  [if values:] is false for [None] and for
    the empty string. *)
Definition __call__ (dest : string) (values : option string) : Py State unit :=
  let! deptype :=
    match values with
    | Some (String _ _ as values) =>
        call_canonical_deptype (all_or_tuple (tokens_of values))
    | Some EmptyString | None => ret all_deptypes
    end in
  setattr dest (NsDeptype deptype).

End deptype.
End Deptype.

(** Occurrences of a character in a string, to count the pieces of
    [Deptype.split]. *)
Fixpoint count_char (c : Ascii.ascii) (s : string) : nat :=
  match s with
  | EmptyString => 0%nat
  | String c' rest =>
      if decide (c' = c) then S (count_char c rest) else count_char c rest
  end.

(** ** Small collaborators to run the code on

    Executable stand-ins for the collaborators, used to evaluate the
    embedding on concrete inputs.  They implement the interfaces above and
    nothing in the embedding depends on them. *)

Module Samples.

(** A layered configuration: values by (scope, path); a read takes the
    first scope of [scope_priority] that has the path. *)
Record LayeredConfig := mkConfig {
  int_values : gmap (string * string) Z;
  dirty_value : option bool
}.

Definition scope_priority : list string :=
  ["command_line"; "user"; "site"; "defaults"].

Fixpoint first_scope (scopes : list string) (values : gmap (string * string) Z)
    (path : string) : option Z :=
  match scopes with
  | [] => None
  | scope :: rest =>
      match values !! (scope, path) with
      | Some v => Some v
      | None => first_scope rest values path
      end
  end.

Global Instance LayeredConfig_system : ConfigSystem LayeredConfig := {|
  config_get_int c path default_value :=
    default default_value (first_scope scope_priority (int_values c) path);
  config_get_bool c path :=
    if decide (path = "config:dirty") then dirty_value c else None;
  config_set_int c path value scope :=
    mkConfig (<[(scope, path) := value]> (int_values c)) (dirty_value c)
|}.

Definition empty_config : LayeredConfig := mkConfig ∅ None.

(** A parser in the way of argparse with its default conflict handler: it
    keeps the arguments added so far and refuses an option string (a flag
    that starts with a dash) that is already taken. *)
Definition is_option_string (flag : string) : bool :=
  match flag with
  | String c _ => bool_decide (c = Ascii.ascii_of_nat 45)
  | EmptyString => false
  end.

Definition option_strings (added : list Args) : list string :=
  filter (λ f, is_option_string f = true) (added ≫= flags).

Definition conflicts (added : list Args) (x : Args) : list string :=
  filter (λ f, f ∈ option_strings added) (flags x).

(** The text of argparse's [ArgumentError] for a conflict: the argument by
    its option strings, then the option strings already taken. *)
Definition conflict_message (x : Args) (clashes : list string) : string :=
  "argument " +:+ Registry.join "/" (flags x) +:+
  match clashes with
  | [_] => ": conflicting option string: "
  | _ => ": conflicting option strings: "
  end +:+ Registry.join ", " clashes.

Global Instance ArgumentParser : ArgumentContainer (list Args) := {|
  add_argument added x :=
    match conflicts added x with
    | [] => inr (added ++ [x])
    | clashes => inl (conflict_message x clashes)
    end
|}.

(** A parser that takes every argument (argparse with
    [conflict_handler='resolve'] never refuses an option string). *)
Record LenientParser := mkLenient { lenient_added : list Args }.

Global Instance LenientParser_container : ArgumentContainer LenientParser := {|
  add_argument p x := inr (mkLenient (lenient_added p ++ [x]))
|}.

Definition sample_env : Registry.BuildEnv LayeredConfig :=
  Registry.mkBuildEnv empty_config ["build"; "link"; "run"; "test"].

(** Installed specs: a name, a version and a hash; [<] compares the name,
    then the version. *)
Record InstalledSpec := mkSpec {
  spec_name : string;
  spec_version : nat;
  spec_hash : nat
}.

Definition installed_lt (a b : InstalledSpec) : bool :=
  match String.compare (spec_name a) (spec_name b) with
  | Lt => true
  | Eq => (spec_version a <? spec_version b)%nat
  | Gt => false
  end.

(** A query spec is a name prefix; a token with a space in it is not a
    spec. *)
Fixpoint has_space (s : string) : bool :=
  match s with
  | EmptyString => false
  | String c rest => bool_decide (c = Ascii.ascii_of_nat 32) || has_space rest
  end.

Fixpoint sample_parse_specs (tokens : list string) : string + list string :=
  match tokens with
  | [] => inr []
  | t :: rest =>
      if has_space t then inl ("invalid spec: " +:+ t)
      else match sample_parse_specs rest with
           | inr specs => inr (t :: specs)
           | inl payload => inl payload
           end
  end.

Definition hash_allowed (filters : gmap string (Constraint.Filter nat))
    (s : InstalledSpec) : bool :=
  match filters !! "hashes" with
  | Some (Constraint.FHashes hs) => bool_decide (spec_hash s ∈ hs)
  | _ => true
  end.

Definition name_matches (query_spec : option string) (s : InstalledSpec) : bool :=
  match query_spec with
  | Some q => String.prefix q (spec_name s)
  | None => true
  end.

(** The database is the list of installed specs; a query keeps the ones
    that match the query spec and the hash filter. *)
Definition sample_query (installed : list InstalledSpec)
    (query_spec : option string) (filters : gmap string (Constraint.Filter nat))
    : list InstalledSpec :=
  filter (λ s, name_matches query_spec s && hash_allowed filters s = true)
         installed.

Definition zlib : InstalledSpec := mkSpec "zlib" 12 101.
Definition zstd : InstalledSpec := mkSpec "zstd" 5 102.
Definition cmake : InstalledSpec := mkSpec "cmake" 3 103.
Definition three_installed : list InstalledSpec := [zlib; zstd; cmake].

(** An environment is the list of its hashes. *)
Definition sample_all_hashes (env : list nat) : list nat := env.

Definition constraint_state (tokens : option (list string))
    (env : option (list nat))
    : Constraint.State string nat (list InstalledSpec) (list nat) :=
  Constraint.mkState tokens ∅ env three_installed [].

Definition sample_specs :=
  Constraint._specs sample_parse_specs sample_query sample_all_hashes
                    spec_hash installed_lt.

(** A dependency-type vocabulary: ['all'] and every known name are
    accepted, a tuple comes back in vocabulary order. *)
Definition sample_deptypes : list string := ["build"; "link"; "run"; "test"].

Definition sample_canonical_deptype (a : Deptype.DeptypeArg)
    : string + list string :=
  match a with
  | Deptype.DStr s =>
      if decide (s = "all") then inr sample_deptypes
      else if decide (s ∈ sample_deptypes) then inr [s]
      else inl ("Invalid dependency type: " +:+ s)
  | Deptype.DTuple t =>
      match filter (λ d, d ∉ sample_deptypes) t with
      | [] => inr (filter (λ d, d ∈ t) sample_deptypes)
      | bad :: _ => inl ("Invalid dependency types: " +:+ bad)
      end
  end.

Definition sample_deptype_call :=
  Deptype.__call__ sample_deptypes sample_canonical_deptype.

(** U+00A0, the no-break space, and U+2003, the em space, in UTF-8. *)
Definition nbsp : string :=
  String (Ascii.ascii_of_nat 194) (String (Ascii.ascii_of_nat 160) EmptyString).
Definition em_space : string :=
  String (Ascii.ascii_of_nat 226)
    (String (Ascii.ascii_of_nat 128)
       (String (Ascii.ascii_of_nat 131) EmptyString)).

Definition jobs_state (n : Z) : Jobs.State :=
  Jobs.mkState empty_config ∅ n.

End Samples.

(** * Properties *)

(** ** The monad *)

Lemma bind_returned {S A B} (m : Py S A) (k : A → Py S B) s a s' :
  m s = (Returned a, s') → bind m k s = k a s'.
Proof. intros Hm. unfold bind. by rewrite Hm. Qed.

Lemma bind_raised {S A B} (m : Py S A) (k : A → Py S B) s e s' :
  m s = (Raised e, s') → bind m k s = (Raised e, s').
Proof. intros Hm. unfold bind. by rewrite Hm. Qed.

(** ** [add_common_arguments] *)

Module RegistryFacts.
Import Registry.

Section facts.
Context {Config : Type} `{!ConfigSystem Config}.
Context {Parser : Type} `{!ArgumentContainer Parser}.
Variable registry : gmap string (@Builder Config).
Variable e : BuildEnv Config.

Local Abbreviation attach := (add_common_arguments registry e).

Lemma attach_cons_registered name fn rest parser :
  registry !! name = Some fn →
  attach (name :: rest) parser =
    match add_argument parser (fn e) with
    | inr parser' => attach rest parser'
    | inl payload => (Raised (Propagated Argparse payload), parser)
    end.
Proof.
  intros Hfn. cbn [add_common_arguments]. unfold Builder in *. rewrite Hfn.
  unfold bind, parser_add_argument.
  by destruct (add_argument parser (fn e)).
Qed.

Lemma attach_cons_unregistered name rest parser :
  registry !! name = None →
  attach (name :: rest) parser =
    (Raised (KeyError (unknown_argument_message name)), parser).
Proof.
  intros Hfn. cbn [add_common_arguments]. unfold Builder in *. by rewrite Hfn.
Qed.

Lemma built_cons_registered name fn rest :
  registry !! name = Some fn →
  built registry e (name :: rest) = fn e :: built registry e rest.
Proof.
  intros Hfn. unfold built. cbn [omap list_omap]. unfold Builder in *.
  by rewrite Hfn.
Qed.

(** Up to the first unregistered name, attaching is [add_all] of what the
    builders produce. *)
Lemma attach_reaches_unregistered pre name post parser parser' :
  Forall (λ n, is_Some (registry !! n)) pre →
  registry !! name = None →
  add_all parser (built registry e pre) = inr parser' →
  attach (pre ++ name :: post) parser =
    (Raised (KeyError (unknown_argument_message name)), parser').
Proof.
  intros Hpre Hname. revert parser.
  induction Hpre as [|n pre [fn Hfn] _ IH]; intros parser Hadd.
  - simpl in Hadd. injection Hadd as <-. by apply attach_cons_unregistered.
  - rewrite (built_cons_registered _ _ _ Hfn) in Hadd. simpl in Hadd.
    change ((n :: pre) ++ name :: post) with (n :: (pre ++ name :: post)).
    rewrite (attach_cons_registered _ _ _ _ Hfn).
    destruct (add_argument parser (fn e)) as [payload|p1]; [done|].
    by apply IH.
Qed.

(** Whenever attaching ends in a [KeyError], it is the one of the first
    unregistered name, and the parser holds what came before it. *)
Lemma attach_key_error_inv names parser message parser' :
  attach names parser = (Raised (KeyError message), parser') →
  ∃ pre name post,
    names = pre ++ name :: post ∧
    Forall (λ n, is_Some (registry !! n)) pre ∧
    registry !! name = None ∧
    message = unknown_argument_message name ∧
    add_all parser (built registry e pre) = inr parser'.
Proof.
  revert parser. induction names as [|n names IH]; intros parser Hrun.
  - discriminate.
  - destruct (registry !! n) as [fn|] eqn:Hfn.
    + rewrite (attach_cons_registered _ _ _ _ Hfn) in Hrun.
      destruct (add_argument parser (fn e)) as [payload|p1] eqn:Hadd;
        [discriminate|].
      destruct (IH _ Hrun) as (pre & name & post & -> & Hpre & Hname & -> & Hall).
      exists (n :: pre), name, post. split_and!; eauto.
      rewrite (built_cons_registered _ _ _ Hfn). simpl. by rewrite Hadd.
    + rewrite (attach_cons_unregistered _ _ _ Hfn) in Hrun.
      injection Hrun as <- <-.
      exists [], n, names. split_and!; eauto.
Qed.

Lemma attach_through_registered pre rest parser :
  Forall (λ n, is_Some (registry !! n)) pre →
  attach (pre ++ rest) parser =
    match add_all parser (built registry e pre) with
    | inr parser' => attach rest parser'
    | inl payload => (Raised (Propagated Argparse payload),
                      snd (attach (pre ++ rest) parser))
    end
  ∧ length (built registry e pre) = length pre.
Proof.
  intros Hpre. revert parser.
  induction Hpre as [|n pre [fn Hfn] _ IH]; intros parser; [done|].
  rewrite (built_cons_registered _ _ _ Hfn).
  change ((n :: pre) ++ rest) with (n :: (pre ++ rest)).
  rewrite (attach_cons_registered _ _ _ _ Hfn). cbn [add_all length].
  destruct (add_argument parser (fn e)) as [payload|p1]; [|destruct (IH p1)];
    split; auto.
  destruct (IH parser) as [_ Hlen]. auto.
Qed.

(** C2, as amended: attaching ends in the unknown-argument error (the
    [KeyError] whose message quotes the name) exactly when some name of the
    list has no builder and the parser took the arguments of every name
    before the first such name; when the parser refuses one of those
    earlier arguments, attaching ends in the parser's own error instead;
    and attaching a single registered name never ends in the
    unknown-argument error. *)
Theorem attach_unknown_argument_iff names parser message :
  (fst (attach names parser) = Raised (KeyError message) ↔
   ∃ pre name post,
     names = pre ++ name :: post ∧
     Forall (λ n, is_Some (registry !! n)) pre ∧
     registry !! name = None ∧
     message = unknown_argument_message name ∧
     ∃ parser', add_all parser (built registry e pre) = inr parser')
  ∧ (∀ pre name post payload,
       names = pre ++ name :: post →
       Forall (λ n, is_Some (registry !! n)) pre →
       registry !! name = None →
       add_all parser (built registry e pre) = inl payload →
       fst (attach names parser) = Raised (Propagated Argparse payload))
  ∧ (∀ name, is_Some (registry !! name) →
       fst (attach [name] parser) ≠ Raised (KeyError message)).
Proof.
  split; [split|split].
  - destruct (attach names parser) as [out parser'] eqn:Hrun. simpl.
    intros ->. apply attach_key_error_inv in Hrun
      as (pre & name & post & ? & ? & ? & ? & ?).
    exists pre, name, post. eauto 10.
  - intros (pre & name & post & -> & Hpre & Hname & -> & parser' & Hall).
    by rewrite (attach_reaches_unregistered _ _ _ _ _ Hpre Hname Hall).
  - intros pre name post payload -> Hpre Hname Hall.
    destruct (attach_through_registered pre (name :: post) parser Hpre)
      as [Hrun _].
    rewrite Hrun, Hall. done.
  - intros name [fn Hfn]. rewrite (attach_cons_registered _ _ _ _ Hfn).
    by destruct (add_argument parser (fn e)).
Qed.


End facts.

(** C2 as the specification states it fails on a parser that refuses a
    repeated option string: ["nope"] has no builder, yet attaching
    [jobs, jobs, nope] ends in argparse's error for the second [jobs], and
    no unknown-argument error is raised for any name. *)
Lemma attach_conflict_hides_unknown_argument :
  let names := ["jobs"; "jobs"; "nope"] in
  let run := add_common_arguments _arguments Samples.sample_env names
               ([] : list Args) in
  ¬ ((∃ name, name ∈ names ∧ (@_arguments Samples.LayeredConfig _) !! name = None) ↔
     (∃ name, fst run = Raised (KeyError (unknown_argument_message name))))
  ∧ fst run = Raised (Propagated Argparse
      "argument -j/--jobs: conflicting option strings: -j, --jobs").
Proof.
  split; [|by vm_compute].
  intros [Hto _]. destruct Hto as [name Hname].
  - exists "nope". split; [set_solver | by vm_compute].
  - vm_compute in Hname. discriminate.
Qed.

Lemma attach_unknown_argument_iff_witness :
  fst (add_common_arguments _arguments Samples.sample_env ["jobs"; "nope"]
         ([] : list Args))
    = Raised (KeyError (unknown_argument_message "nope"))
  ∧ fst (add_common_arguments _arguments Samples.sample_env
           ["jobs"; "jobs"; "nope"] ([] : list Args))
    = Raised (Propagated Argparse
        "argument -j/--jobs: conflicting option strings: -j, --jobs")
  ∧ fst (add_common_arguments _arguments Samples.sample_env ["jobs"]
           ([] : list Args))
      ≠ Raised (KeyError (unknown_argument_message "nope")).
Proof.
  split_and!.
  - apply (attach_unknown_argument_iff _arguments Samples.sample_env
             ["jobs"; "nope"] [] (unknown_argument_message "nope")).
    exists ["jobs"], "nope", []. split_and!; [reflexivity| |reflexivity..| ].
    + constructor; [|constructor]. eexists. vm_compute. reflexivity.
    + eexists. vm_compute. reflexivity.
  - apply (proj1 (proj2 (attach_unknown_argument_iff _arguments
             Samples.sample_env ["jobs"; "jobs"; "nope"] []
             (unknown_argument_message "nope")))
             ["jobs"; "jobs"] "nope" []).
    + reflexivity.
    + constructor; [|constructor; [|constructor]];
        eexists; vm_compute; reflexivity.
    + vm_compute. reflexivity.
    + vm_compute. reflexivity.
  - apply (proj2 (proj2 (attach_unknown_argument_iff _arguments
             Samples.sample_env ["jobs"] []
             (unknown_argument_message "nope")))).
    eexists. vm_compute. reflexivity.
Defined.


End RegistryFacts.

(** ** The containers: [dict] assignment and [sorted] *)

Module ContainerFacts.

Section dict.
Context {K V : Type} `{EqDecision K}.
Implicit Types (d : list (K * V)).

Lemma dict_set_keys k v d :
  (dict_set k v d).*1 = if decide (k ∈ d.*1) then d.*1 else d.*1 ++ [k].
Proof.
  induction d as [|[k' v'] d IH]; cbn [dict_set fmap list_fmap fst].
  - case_decide; [set_solver | done].
  - destruct (decide (k = k')) as [->|Hne]; cbn [fmap list_fmap fst].
    + rewrite decide_True; [done | set_solver].
    + rewrite IH. destruct (decide (k ∈ d.*1)) as [Hin|Hnin].
      * rewrite decide_True; [done | set_solver].
      * rewrite decide_False; [done | set_solver].
Qed.

Lemma dict_set_NoDup k v d : NoDup d.*1 → NoDup (dict_set k v d).*1.
Proof.
  intros Hd. rewrite dict_set_keys. case_decide; [done|].
  apply NoDup_app. split_and!; [done | set_solver | apply NoDup_singleton].
Qed.

Lemma dict_set_key_in k v d : k ∈ (dict_set k v d).*1.
Proof. rewrite dict_set_keys. case_decide; set_solver. Qed.

Lemma dict_set_keys_mono k v d k' : k' ∈ d.*1 → k' ∈ (dict_set k v d).*1.
Proof. rewrite dict_set_keys. case_decide; set_solver. Qed.

(** An entry of the dictionary after [d[k] = v] is the new one or was
    there before. *)
Lemma dict_set_entries k v d kv :
  kv ∈ dict_set k v d → kv = (k, v) ∨ kv ∈ d.
Proof.
  induction d as [|[k' v'] d IH]; simpl.
  - set_solver.
  - destruct (decide (k = k')); set_solver.
Qed.
End dict.

Section sorted.
Context {A : Type} (lt : A → A → bool).
Hypothesis lt_asym : ∀ a b, lt a b = true → lt b a = false.

Local Abbreviation le := (λ a b, lt b a = false).

Lemma insert_sorted_perm x l : insert_sorted lt x l ≡ₚ x :: l.
Proof.
  induction l as [|y l IH]; simpl; [done|].
  destruct (lt x y); [done|]. rewrite IH. apply Permutation_swap.
Qed.

Lemma sorted_perm l : sorted lt l ≡ₚ l.
Proof.
  unfold sorted. rewrite <-(app_nil_l l) at 2. generalize (@nil A) as acc.
  induction l as [|x l IH]; intros acc; simpl.
  - by rewrite app_nil_r.
  - rewrite IH, insert_sorted_perm. simpl. apply Permutation_middle.
Qed.

Lemma insert_sorted_HdRel x y l :
  lt x y = false → HdRel le y l → HdRel le y (insert_sorted lt x l).
Proof.
  intros Hxy Hl. destruct l as [|z l]; simpl; [by constructor|].
  inversion_clear Hl. destruct (lt x z); by constructor.
Qed.

Lemma insert_sorted_Sorted x l : Sorted le l → Sorted le (insert_sorted lt x l).
Proof.
  induction 1 as [|y l Hl IH Hhd]; simpl.
  - by repeat constructor.
  - destruct (lt x y) eqn:Hxy.
    + constructor; [by constructor|]. constructor. by apply lt_asym.
    + constructor; [done|]. by apply insert_sorted_HdRel.
Qed.

Lemma sorted_Sorted l : Sorted le (sorted lt l).
Proof.
  unfold sorted. assert (Sorted le (@nil A)) as Hacc by constructor.
  revert Hacc. generalize (@nil A) as acc.
  induction l as [|x l IH]; intros acc Hacc; simpl; [done|].
  by apply IH, insert_sorted_Sorted.
Qed.
End sorted.

Lemma filter_none {A} (P : A → Prop) `{∀ x, Decision (P x)} (l : list A) :
  Forall (λ x, ¬ P x) l → filter P l = [].
Proof.
  induction 1 as [|x l Hx _ IH]; [done|]. by rewrite filter_cons_False.
Qed.

(** In a list whose images under [f] are distinct, each image that occurs
    belongs to exactly one element. *)
Lemma NoDup_fmap_once {A B} `{EqDecision B} (f : A → B) (l : list A) (y : B) :
  NoDup (f <$> l) → y ∈ f <$> l →
  length (filter (λ x, f x = y) l) = 1%nat.
Proof.
  induction l as [|x l IH]; simpl; intros Hnd Hin.
  - by apply elem_of_nil in Hin.
  - apply NoDup_cons in Hnd as [Hx Hnd]. rewrite filter_cons.
    destruct (decide (f x = y)) as [<-|Hne]; simpl.
    + f_equal. rewrite filter_none; [done|]. apply Forall_forall.
      intros z Hz Heq. apply Hx. rewrite <-Heq. by apply list_elem_of_fmap_2.
    + apply IH; [done|]. set_solver.
Qed.

End ContainerFacts.

(** ** [ConstraintAction] *)

Module ConstraintFacts.
Import Constraint ContainerFacts.

Section facts.
Context {QSpec Pkg Hash DB Env : Type} `{Countable Hash}.
Variable parse_specs : list string → string + list QSpec.
Variable db_query : DB → option QSpec → gmap string (Filter Hash) → list Pkg.
Variable all_hashes : Env → list Hash.
Variable dag_hash : Pkg → Hash.
Variable spec_lt : Pkg → Pkg → bool.

Implicit Types (st : State QSpec Hash DB Env) (specs : list (Hash * Pkg)).
Implicit Types (kwargs : gmap string (Filter Hash)).

Local Abbreviation specs_of := (_specs parse_specs db_query all_hashes dag_hash spec_lt).
Local Abbreviation keyed := (λ kv : Hash * Pkg, kv.1 = dag_hash kv.2).

Lemma log_calls_nil st : log_calls [] st = st.
Proof. destruct st. unfold log_calls. simpl. by rewrite app_nil_r. Qed.

Lemma log_calls_app cs1 cs2 st :
  log_calls cs2 (log_calls cs1 st) = log_calls (cs1 ++ cs2) st.
Proof. unfold log_calls. simpl. by rewrite app_assoc. Qed.

(** *** The dictionary filled by the loops *)

Lemma store_matches_NoDup specs results :
  NoDup specs.*1 → NoDup (store_matches dag_hash specs results).*1.
Proof.
  revert specs. induction results as [|s results IH]; intros specs Hd; [done|].
  apply IH. by apply dict_set_NoDup.
Qed.

Lemma store_matches_keyed specs results :
  Forall keyed specs → Forall keyed (store_matches dag_hash specs results).
Proof.
  revert specs. induction results as [|s results IH]; intros specs Hd; [done|].
  apply IH. apply Forall_forall. intros kv Hkv.
  apply dict_set_entries in Hkv as [->|Hkv]; [done|].
  by eapply Forall_forall in Hd.
Qed.

Lemma store_matches_entries specs results kv :
  kv ∈ store_matches dag_hash specs results → kv ∈ specs ∨ kv.2 ∈ results.
Proof.
  revert specs. induction results as [|s results IH]; intros specs Hkv; [by left|].
  apply IH in Hkv as [Hkv|Hkv]; [|right; set_solver].
  apply dict_set_entries in Hkv as [->|Hkv]; [right; set_solver | by left].
Qed.

Lemma store_matches_keys_mono specs results h :
  h ∈ specs.*1 → h ∈ (store_matches dag_hash specs results).*1.
Proof.
  revert specs. induction results as [|s results IH]; intros specs Hh; [done|].
  by apply IH, dict_set_keys_mono.
Qed.

Lemma store_matches_covers specs results s :
  s ∈ results → dag_hash s ∈ (store_matches dag_hash specs results).*1.
Proof.
  revert specs. induction results as [|s' results IH]; intros specs Hs.
  - by apply elem_of_nil in Hs.
  - change (store_matches dag_hash specs (s' :: results))
      with (store_matches dag_hash (dict_set (dag_hash s') s' specs) results).
    apply elem_of_cons in Hs as [->|Hs]; [|by apply IH].
    apply store_matches_keys_mono, dict_set_key_in.
Qed.

Section accumulated.
Variable database : DB.
Variable kwargs : gmap string (Filter Hash).
Local Abbreviation accumulated := (matches_by_hash db_query dag_hash database).

Lemma matches_by_hash_NoDup qspecs specs :
  NoDup specs.*1 → NoDup (accumulated qspecs kwargs specs).*1.
Proof.
  revert specs. induction qspecs as [|q qspecs IH]; intros specs Hd; [done|].
  by apply IH, store_matches_NoDup.
Qed.

Lemma matches_by_hash_keyed qspecs specs :
  Forall keyed specs → Forall keyed (accumulated qspecs kwargs specs).
Proof.
  revert specs. induction qspecs as [|q qspecs IH]; intros specs Hd; [done|].
  by apply IH, store_matches_keyed.
Qed.

Lemma matches_by_hash_entries qspecs specs kv :
  kv ∈ accumulated qspecs kwargs specs →
  kv ∈ specs ∨ ∃ q, q ∈ qspecs ∧ kv.2 ∈ db_query database (Some q) kwargs.
Proof.
  revert specs. induction qspecs as [|q qspecs IH]; intros specs Hkv; [by left|].
  apply IH in Hkv as [Hkv|(q' & ? & ?)]; [|right; exists q'; set_solver].
  apply store_matches_entries in Hkv as [?|?]; [by left|].
  right. exists q. set_solver.
Qed.

Lemma matches_by_hash_keys_mono qspecs specs h :
  h ∈ specs.*1 → h ∈ (accumulated qspecs kwargs specs).*1.
Proof.
  revert specs. induction qspecs as [|q qspecs IH]; intros specs Hh; [done|].
  by apply IH, store_matches_keys_mono.
Qed.

Lemma matches_by_hash_covers qspecs specs q s :
  q ∈ qspecs → s ∈ db_query database (Some q) kwargs →
  dag_hash s ∈ (accumulated qspecs kwargs specs).*1.
Proof.
  revert specs. induction qspecs as [|q' qspecs IH]; intros specs Hq Hs.
  - by apply elem_of_nil in Hq.
  - change (accumulated (q' :: qspecs) kwargs specs)
      with (accumulated qspecs kwargs
              (store_matches dag_hash specs (db_query database (Some q') kwargs))).
    apply elem_of_cons in Hq as [->|Hq]; [|by apply IH].
    by apply matches_by_hash_keys_mono, store_matches_covers.
Qed.
End accumulated.

(** *** Running the callable *)

Lemma query_each_run qspecs kwargs specs st :
  query_each db_query dag_hash qspecs kwargs specs st =
    (Returned (matches_by_hash db_query dag_hash (db st) qspecs kwargs specs),
     log_calls ((λ q, CallQuery (Some q) kwargs) <$> qspecs) st).
Proof.
  revert specs st. induction qspecs as [|q qspecs IH]; intros specs st.
  - simpl. unfold ret. by rewrite log_calls_nil.
  - cbn [query_each]. unfold bind, call_query, log_call.
    rewrite IH, log_calls_app. done.
Qed.

Lemma specs_run kwargs st values qspecs :
  self_values st = Some values →
  parse_specs values = inr qspecs →
  let filters := env_kwargs all_hashes (_active_environment st) kwargs in
  specs_of kwargs st =
    match qspecs with
    | [] => (Returned (db_query (db st) None filters),
             log_calls [CallParseSpecs values; CallQuery None filters] st)
    | _ :: _ =>
        (Returned (sorted spec_lt (dict_values
           (matches_by_hash db_query dag_hash (db st) qspecs filters []))),
         log_calls (CallParseSpecs values ::
                    ((λ q, CallQuery (Some q) filters) <$> qspecs)) st)
    end.
Proof.
  intros Hvalues Hparse filters. unfold _specs, bind at 1, read_self_values.
  rewrite Hvalues. unfold bind at 1, call_parse_specs. rewrite Hparse.
  unfold bind at 1, get_state. cbn [_active_environment log_call log_calls].
  fold filters. destruct qspecs as [|q qspecs].
  - unfold call_query, log_call. by rewrite log_calls_app.
  - unfold bind. rewrite query_each_run. unfold ret, log_call.
    by rewrite log_calls_app.
Qed.

Lemma specs_parse_error kwargs st values payload :
  self_values st = Some values →
  parse_specs values = inl payload →
  specs_of kwargs st =
    (Raised (Propagated SpecParser payload), log_call (CallParseSpecs values) st).
Proof.
  intros Hvalues Hparse. unfold _specs, bind at 1, read_self_values.
  rewrite Hvalues. unfold bind at 1, call_parse_specs. by rewrite Hparse.
Qed.

(** The calls one invocation adds, whatever its outcome: at most one parse,
    then queries that all carry the same filters. *)
Lemma specs_calls kwargs st :
  ∃ new,
    calls (snd (specs_of kwargs st)) = calls st ++ new ∧
    Forall (λ c, match c with
                 | CallQuery _ filters =>
                     filters = env_kwargs all_hashes (_active_environment st) kwargs
                 | CallParseSpecs _ => True
                 end) new.
Proof.
  destruct (self_values st) as [values|] eqn:Hvalues.
  - destruct (parse_specs values) as [payload|qspecs] eqn:Hparse.
    + rewrite (specs_parse_error _ _ _ _ Hvalues Hparse). eexists. split; [done|].
      by repeat constructor.
    + rewrite (specs_run _ _ _ _ Hvalues Hparse).
      destruct qspecs as [|q qspecs]; (eexists; split; [done|]).
      * by repeat constructor.
      * constructor; [done|]. apply Forall_fmap, Forall_forall. by intros.
  - exists []. unfold _specs, bind, read_self_values. rewrite Hvalues. simpl.
    by rewrite app_nil_r.
Qed.

(** C1, as amended: while an environment is active, every query the
    callable sends to the database carries the environment's hash set under
    ['hashes'] and the caller's other filters unchanged; a ['hashes'] filter
    of the caller is replaced, so it changes neither the calls nor the
    result. *)
Theorem specs_env_hashes_replace kwargs st env :
  _active_environment st = Some env →
  let env_set := FHashes (list_to_set (all_hashes env)) in
  (∃ new,
     calls (snd (specs_of kwargs st)) = calls st ++ new ∧
     ∀ q filters, CallQuery q filters ∈ new →
       filters = env_kwargs all_hashes (Some env) kwargs ∧
       filters !! "hashes" = Some env_set ∧
       ∀ key, key ≠ "hashes" → filters !! key = kwargs !! key)
  ∧ (∀ caller,
       _specs parse_specs db_query all_hashes dag_hash spec_lt
              (<["hashes" := caller]> kwargs) st
       = _specs parse_specs db_query all_hashes dag_hash spec_lt kwargs st).
Proof.
  intros Henv env_set. split.
  - destruct (specs_calls kwargs st) as (new & Hcalls & Hnew).
    exists new. split; [done|]. intros q filters Hin.
    eapply Forall_forall in Hnew; [|done]. simpl in Hnew.
    rewrite Henv in Hnew. subst filters. unfold env_kwargs. split_and!.
    + done.
    + by rewrite lookup_insert_eq.
    + intros key Hkey. by rewrite lookup_insert_ne.
  - intros caller. unfold _specs, bind, get_state.
    destruct (read_self_values st) as [[values|err] st1] eqn:Hread; [|done].
    destruct (call_parse_specs parse_specs values st1)
      as [[qspecs|err] st2] eqn:Hparse; [|done].
    assert (_active_environment st2 = Some env) as ->.
    { unfold read_self_values in Hread. unfold call_parse_specs in Hparse.
      destruct (self_values st); simplify_eq.
      by destruct (parse_specs values); simplify_eq. }
    unfold env_kwargs. by rewrite insert_insert_eq.
Qed.

(** C5, as amended: for an action that captured the empty token list
    (which the parser turns into no query spec), the callable returns what
    one database query without a query spec returns under the filters in
    force, so no package is matched against a spec.  Without an active
    environment the filters are the caller's own, and the result is the
    database's answer to them alone; while an environment is active the
    query carries that environment's hashes under ['hashes'], so the
    result is restricted to them. *)
Theorem specs_empty_constraint kwargs st :
  self_values st = Some [] →
  parse_specs [] = inr [] →
  let filters := env_kwargs all_hashes (_active_environment st) kwargs in
  specs_of kwargs st =
    (Returned (db_query (db st) None filters),
     log_calls [CallParseSpecs []; CallQuery None filters] st)
  ∧ (_active_environment st = None →
     fst (specs_of kwargs st) = Returned (db_query (db st) None kwargs))
  ∧ (∀ env, _active_environment st = Some env →
     fst (specs_of kwargs st) =
       Returned (db_query (db st) None
                   (<["hashes" := FHashes (list_to_set (all_hashes env))]> kwargs))).
Proof.
  intros Hvalues Hparse filters.
  pose proof (specs_run kwargs st [] [] Hvalues Hparse) as Hrun.
  cbv zeta in Hrun. split_and!; [done| |].
  - intros Henv. rewrite Hrun. unfold filters. by rewrite Henv.
  - intros env Henv. rewrite Hrun. unfold filters. by rewrite Henv.
Qed.

(** C8: firing the action only assigns: it returns, it leaves the raw
    tokens under [constraint] and the bound method under [specs], and it
    calls neither the spec parser nor the database, also for tokens the
    parser refuses; the parser's error is raised by the callable, when that
    is invoked. *)
Theorem constraint_call_defers values st :
  let st' := snd (__call__ values st) in
  fst (__call__ values st) = Returned tt
  ∧ calls st' = calls st
  ∧ namespace st' !! "constraint" = Some (NsTokens values)
  ∧ namespace st' !! "specs" = Some NsBoundSpecs
  ∧ self_values st' = Some values
  ∧ (∀ payload kwargs,
       parse_specs values = inl payload →
       fst (specs_of kwargs st') = Raised (Propagated SpecParser payload)
       ∧ calls (snd (specs_of kwargs st')) = calls st ++ [CallParseSpecs values]).
Proof.
  intros st'. split_and!.
  - done.
  - simpl. by rewrite app_nil_r || done.
  - simpl. rewrite lookup_insert_ne; [|done]. by rewrite lookup_insert_eq.
  - simpl. by rewrite lookup_insert_eq.
  - done.
  - intros payload kwargs Hparse.
    by rewrite (specs_parse_error kwargs st' values payload eq_refl Hparse).
Qed.

(** C4: for a token list parsed into at least one query spec, the callable
    returns the values of a dictionary keyed by [dag_hash], filled from the
    database's answers to every query spec: every returned package matches
    some query spec, every hash matched by some query spec occurs exactly
    once in the result, and the result is sorted by the packages' [<]
    (ascending; every earlier element is below or equal to every later one
    as soon as the ordering is transitive). *)
Theorem specs_matches_once_sorted kwargs st values qspecs :
  (∀ a b, spec_lt a b = true → spec_lt b a = false) →
  self_values st = Some values →
  parse_specs values = inr qspecs →
  qspecs ≠ [] →
  let filters := env_kwargs all_hashes (_active_environment st) kwargs in
  let below_eq := λ a b, spec_lt b a = false in
  ∃ result specs_dict,
    fst (specs_of kwargs st) = Returned result
    ∧ result = sorted spec_lt (dict_values specs_dict)
    ∧ NoDup specs_dict.*1
    ∧ Forall (λ kv, kv.1 = dag_hash kv.2) specs_dict
    ∧ NoDup (dag_hash <$> result)
    ∧ (∀ s, s ∈ result →
         ∃ q, q ∈ qspecs ∧ s ∈ db_query (db st) (Some q) filters)
    ∧ (∀ q s, q ∈ qspecs → s ∈ db_query (db st) (Some q) filters →
         length (filter (λ x, dag_hash x = dag_hash s) result) = 1%nat)
    ∧ Sorted below_eq result
    ∧ (Transitive below_eq → StronglySorted below_eq result).
Proof.
  intros Hasym Hvalues Hparse Hne filters below_eq.
  pose proof (specs_run kwargs st values qspecs Hvalues Hparse) as Hrun.
  cbv zeta in Hrun. fold filters in Hrun.
  destruct qspecs as [|q0 qspecs]; [done|].
  set (d := matches_by_hash db_query dag_hash (db st) (q0 :: qspecs) filters [])
    in *.
  assert (NoDup d.*1) as Hnd by (apply matches_by_hash_NoDup; constructor).
  assert (Forall keyed d) as Hkeyed by (apply matches_by_hash_keyed; constructor).
  assert (sorted spec_lt (dict_values d) ≡ₚ d.*2) as Hperm by apply sorted_perm.
  assert (dag_hash <$> d.*2 = d.*1) as Hkeys.
  { clear -Hkeyed. induction Hkeyed as [|[h s] d Hhs _ IH]; [done|].
    cbn [fmap list_fmap fst snd] in *. by f_equal. }
  assert (Sorted below_eq (sorted spec_lt (dict_values d))) as Hsorted
    by by apply sorted_Sorted.
  exists (sorted spec_lt (dict_values d)), d. rewrite Hrun.
  split_and!; try done.
  - by rewrite Hperm, Hkeys.
  - intros s Hs. rewrite Hperm in Hs.
    apply list_elem_of_fmap in Hs as (kv & -> & Hkv).
    apply matches_by_hash_entries in Hkv as [Hkv|Hkv]; [|done].
    by apply elem_of_nil in Hkv.
  - intros q s Hq Hs. apply NoDup_fmap_once.
    + by rewrite Hperm, Hkeys.
    + rewrite Hperm, Hkeys. by eapply matches_by_hash_covers.
  - intros Htrans. by apply Sorted_StronglySorted.
Qed.

End facts.

(** *** On the sample database *)

Lemma installed_lt_asym a b :
  Samples.installed_lt a b = true → Samples.installed_lt b a = false.
Proof.
  unfold Samples.installed_lt.
  rewrite (String.compare_antisym (Samples.spec_name b) (Samples.spec_name a)).
  destruct (String.compare (Samples.spec_name a) (Samples.spec_name b));
    cbn [CompOpp]; try done.
  intros Hlt%Nat.ltb_lt. apply Nat.ltb_ge. lia.
Qed.

(** C1 as the specification states it fails: with an environment holding
    hash 102 active and a caller that passes [hashes={101}], the one query
    sent to the database carries only the environment's set; the caller's
    set reaches the database under no key, and the answer is the
    environment's package. *)
Lemma caller_hashes_not_passed :
  let caller_set : gset nat := {[101%nat]} in
  let st := Samples.constraint_state (Some []) (Some [102%nat]) in
  let run := Samples.sample_specs {["hashes" := FHashes caller_set]} st in
  calls (snd run) =
    [CallParseSpecs []; CallQuery None {["hashes" := FHashes {[102%nat]}]}]
  ∧ ¬ (∃ q filters key,
         CallQuery q filters ∈ calls (snd run) ∧
         filters !! key = Some (FHashes caller_set))
  ∧ fst run = Returned [Samples.zstd].
Proof.
  intros caller_set st run.
  assert (calls (snd run) =
    [CallParseSpecs []; CallQuery None {["hashes" := FHashes {[102%nat]}]}])
    as Hcalls by (vm_compute; reflexivity).
  split_and!; [done| |by vm_compute].
  rewrite Hcalls. intros (q & filters & key & Hin & Hkey).
  apply elem_of_cons in Hin as [Hin|Hin]; [discriminate|].
  apply list_elem_of_singleton in Hin.
  assert (filters = {["hashes" := FHashes {[102%nat]}]}) as -> by congruence.
  apply lookup_singleton_Some in Hkey as [_ Hkey].
  assert (({[102%nat]} : gset nat) = caller_set) as Heq by congruence.
  assert (101%nat ∈ ({[102%nat]} : gset nat)) as Hmem
    by (rewrite Heq; unfold caller_set; set_solver).
  set_solver.
Qed.

Lemma specs_env_hashes_replace_witness :
  let st := Samples.constraint_state (Some ["z"]) (Some [102%nat]) in
  Samples.sample_specs (<["hashes" := FHashes {[101%nat]}]> ∅) st
    = Samples.sample_specs ∅ st.
Proof.
  intros st. unfold Samples.sample_specs.
  apply (specs_env_hashes_replace Samples.sample_parse_specs
           Samples.sample_query Samples.sample_all_hashes Samples.spec_hash
           Samples.installed_lt ∅ st [102%nat] eq_refl).
Defined.

(** C5 as the specification states it fails while an environment is
    active: with the empty token list and an environment that holds hash
    102, the callable returns the environment's one package, where the
    database query without filters returns all three installed packages. *)
Lemma empty_constraint_restricted_by_environment :
  let st := Samples.constraint_state (Some []) (Some [102%nat]) in
  fst (Samples.sample_specs ∅ st) = Returned [Samples.zstd]
  ∧ Samples.sample_query (db st) None ∅ = Samples.three_installed
  ∧ fst (Samples.sample_specs ∅ st)
      ≠ Returned (Samples.sample_query (db st) None ∅).
Proof.
  intros st.
  assert (fst (Samples.sample_specs ∅ st) = Returned [Samples.zstd]) as Hrun
    by (vm_compute; reflexivity).
  assert (Samples.sample_query (db st) None ∅ = Samples.three_installed)
    as Hall by (vm_compute; reflexivity).
  split_and!; [done..|]. rewrite Hrun, Hall. discriminate.
Qed.

Lemma specs_empty_constraint_witness :
  fst (Samples.sample_specs ∅ (Samples.constraint_state (Some []) None))
    = Returned Samples.three_installed
  ∧ fst (Samples.sample_specs ∅
           (Samples.constraint_state (Some []) (Some [102%nat])))
    = Returned [Samples.zstd].
Proof.
  unfold Samples.sample_specs. split.
  - rewrite (proj1 (specs_empty_constraint Samples.sample_parse_specs
                      Samples.sample_query Samples.sample_all_hashes
                      Samples.spec_hash Samples.installed_lt ∅
                      (Samples.constraint_state (Some []) None)
                      eq_refl eq_refl)).
    vm_compute. reflexivity.
  - rewrite (proj2 (proj2 (specs_empty_constraint Samples.sample_parse_specs
                      Samples.sample_query Samples.sample_all_hashes
                      Samples.spec_hash Samples.installed_lt ∅
                      (Samples.constraint_state (Some []) (Some [102%nat]))
                      eq_refl eq_refl)) [102%nat] eq_refl).
    vm_compute. reflexivity.
Defined.

Lemma constraint_call_defers_witness :
  let st := Samples.constraint_state None None in
  let st' := snd (__call__ ["zl ib"] st) in
  calls st' = []
  ∧ fst (Samples.sample_specs ∅ st')
      = Raised (Propagated SpecParser "invalid spec: zl ib").
Proof.
  intros st st'. unfold Samples.sample_specs.
  destruct (constraint_call_defers Samples.sample_parse_specs
              Samples.sample_query Samples.sample_all_hashes Samples.spec_hash
              Samples.installed_lt ["zl ib"] st)
    as (_ & Hcalls & _ & _ & _ & Hraise).
  split; [exact Hcalls|].
  apply (Hraise "invalid spec: zl ib" ∅). vm_compute. reflexivity.
Defined.

Lemma specs_matches_once_sorted_witness :
  let st := Samples.constraint_state (Some ["z"; "zlib"; "c"]) None in
  ∃ result,
    fst (Samples.sample_specs ∅ st) = Returned result
    ∧ NoDup (Samples.spec_hash <$> result)
    ∧ length (filter (λ x, Samples.spec_hash x = Samples.spec_hash Samples.zlib)
                     result) = 1%nat
    ∧ Sorted (λ a b, Samples.installed_lt b a = false) result.
Proof.
  intros st. unfold Samples.sample_specs.
  destruct (specs_matches_once_sorted Samples.sample_parse_specs
              Samples.sample_query Samples.sample_all_hashes Samples.spec_hash
              Samples.installed_lt ∅ st ["z"; "zlib"; "c"] ["z"; "zlib"; "c"]
              installed_lt_asym eq_refl eq_refl)
    as (result & d & Hrun & _ & _ & _ & Hnodup & _ & Honce & Hsorted & _).
  { discriminate. }
  exists result. split_and!; [exact Hrun | exact Hnodup | | exact Hsorted].
  apply (Honce "zlib"); [set_solver|]. vm_compute. set_solver.
Defined.

End ConstraintFacts.

(** ** [SetParallelJobs] *)

Module JobsFacts.
Import Jobs.

Section facts.
Context {Config : Type} `{!ConfigSystem Config}.
Implicit Types (st : @State Config).

Lemma call_rejected jobs option_string st :
  jobs < 1 →
  __call__ jobs option_string st =
    (Raised (ValueError (invalid_jobs_message option_string jobs)), st).
Proof.
  intros Hlt. unfold __call__.
  by destruct (Z.ltb_spec jobs 1); [|lia].
Qed.

Lemma call_accepted jobs option_string st :
  1 ≤ jobs →
  let clamped := Z.min jobs (cpu_count st) in
  __call__ jobs option_string st =
    (Returned tt,
     mkState (config_set_int (config st) "config:build_jobs" clamped "command_line")
             (<["jobs" := NsInt clamped]> (namespace st))
             (cpu_count st)).
Proof.
  intros Hge clamped. unfold __call__.
  by destruct (Z.ltb_spec jobs 1); [lia|].
Qed.

(** C3: a job count of at least 1 is accepted and [min(jobs, cpu_count())]
    is stored on the namespace under [jobs]; a job count below 1 raises the
    [ValueError] whose message quotes the option string and the value, and
    the namespace is left as it was. *)
Theorem set_parallel_jobs_call jobs option_string st :
  (1 ≤ jobs →
     fst (__call__ jobs option_string st) = Returned tt
     ∧ namespace (snd (__call__ jobs option_string st)) !! "jobs"
         = Some (NsInt (Z.min jobs (cpu_count st))))
  ∧ (jobs < 1 →
     fst (__call__ jobs option_string st)
       = Raised (ValueError
           ("invalid value for argument " +:+ dq +:+ option_string +:+ dq +:+
            " [expected a positive integer, got " +:+ dq +:+
            str_of_int jobs +:+ dq +:+ "]"))
     ∧ namespace (snd (__call__ jobs option_string st)) = namespace st).
Proof.
  split.
  - intros Hge. rewrite (call_accepted _ _ _ Hge). simpl.
    by rewrite lookup_insert_eq.
  - intros Hlt. by rewrite (call_rejected _ _ _ Hlt).
Qed.

(** C9: the write into the [command_line] scope comes after the check: a
    job count below 1 raises and leaves the configuration (and everything
    else) untouched, and an accepted one writes the clamped value to
    [config:build_jobs] in that scope. *)
Theorem config_written_after_validation jobs option_string st :
  (jobs < 1 →
     (∃ err, fst (__call__ jobs option_string st) = Raised err)
     ∧ snd (__call__ jobs option_string st) = st)
  ∧ (1 ≤ jobs →
     fst (__call__ jobs option_string st) = Returned tt
     ∧ config (snd (__call__ jobs option_string st))
         = config_set_int (config st) "config:build_jobs"
             (Z.min jobs (cpu_count st)) "command_line").
Proof.
  split.
  - intros Hlt. rewrite (call_rejected _ _ _ Hlt). eauto.
  - intros Hge. by rewrite (call_accepted _ _ _ Hge).
Qed.

(** C7: every read of [default] computes
    [min(config.get('config:build_jobs', 16), cpu_count())] from the
    configuration and the processor count of that moment and changes
    nothing; the value is at most the processor count; the setter does
    nothing, so a read after it gives what a read without it gives; and two
    reads around a change of the surroundings each see their own
    surroundings, the second one following a drop of the processor
    count. *)
Theorem default_is_computed st :
  let value_in := λ st, Z.min (config_get_int (config st) "config:build_jobs" 16)
                              (cpu_count st) in
  default st = (Returned (value_in st), st)
  ∧ value_in st ≤ cpu_count st
  ∧ (∀ value, default_setter value st = (Returned tt, st))
  ∧ (∀ value, (do! default_setter value in default) st = default st)
  ∧ (∀ change : State → State,
       (let! first := default in
        do! modify change in
        let! second := default in
        ret (first, second)) st
       = (Returned (value_in st, value_in (change st)), change st))
  ∧ (∀ n, n ≤ cpu_count st →
       value_in (mkState (config st) (namespace st) n) ≤ value_in st).
Proof.
  intros value_in. split_and!; try done.
  - unfold value_in. lia.
  - intros n Hn. unfold value_in. simpl. lia.
Qed.

End facts.

Lemma set_parallel_jobs_call_witness :
  namespace (snd (__call__ 999 "--jobs" (Samples.jobs_state 8))) !! "jobs"
    = Some (NsInt 8)
  ∧ fst (__call__ (-3) "--jobs" (Samples.jobs_state 8))
      = Raised (ValueError
          ("invalid value for argument " +:+ dq +:+ "--jobs" +:+ dq +:+
           " [expected a positive integer, got " +:+ dq +:+ "-3" +:+ dq +:+ "]")).
Proof.
  split.
  - apply (set_parallel_jobs_call 999 "--jobs" (Samples.jobs_state 8)). lia.
  - apply (set_parallel_jobs_call (-3) "--jobs" (Samples.jobs_state 8)). lia.
Defined.

Lemma config_written_after_validation_witness :
  snd (__call__ 0 "-j" (Samples.jobs_state 8)) = Samples.jobs_state 8
  ∧ config_get_int (config (snd (__call__ 999 "-j" (Samples.jobs_state 8))))
      "config:build_jobs" 16 = 8.
Proof.
  split.
  - apply (config_written_after_validation 0 "-j" (Samples.jobs_state 8)). lia.
  - rewrite (proj2 (proj2 (config_written_after_validation 999 "-j"
                             (Samples.jobs_state 8)) ltac:(lia))).
    vm_compute. reflexivity.
Defined.

Lemma default_is_computed_witness :
  fst (default (Samples.jobs_state 8)) = Returned 8
  ∧ fst (default (Samples.jobs_state 32)) = Returned 16
  ∧ fst (default (Samples.jobs_state 4)) = Returned 4.
Proof.
  split_and!.
  - by rewrite (proj1 (default_is_computed (Samples.jobs_state 8))).
  - by rewrite (proj1 (default_is_computed (Samples.jobs_state 32))).
  - by rewrite (proj1 (default_is_computed (Samples.jobs_state 4))).
Defined.

End JobsFacts.

(** ** [DeptypeAction] *)

Module DeptypeFacts.
Import Deptype.

(** *** Splitting and stripping *)

Lemma split_nonempty sep s : split sep s ≠ [].
Proof.
  destruct s as [|c rest]; simpl; [done|].
  destruct (decide (c = sep)); [done|]. by destruct (split sep rest).
Qed.

(** Joining the pieces with the separator gives the string back. *)
Lemma join_split sep s :
  Registry.join (String sep EmptyString) (split sep s) = s.
Proof.
  induction s as [|c rest IH]; simpl; [done|].
  pose proof (split_nonempty sep rest) as Hne.
  destruct (decide (c = sep)) as [->|Hc].
  - destruct (split sep rest) as [|piece pieces] eqn:Hsplit; [done|].
    simpl in *. by rewrite IH.
  - destruct (split sep rest) as [|piece pieces] eqn:Hsplit; [done|].
    destruct pieces as [|piece' pieces]; simpl in *; by rewrite <-IH.
Qed.

(** No piece holds the separator. *)
Lemma split_pieces sep s : Forall (λ piece, contains sep piece = false) (split sep s).
Proof.
  induction s as [|c rest IH]; simpl; [by repeat constructor|].
  destruct (decide (c = sep)) as [->|Hc]; [by constructor|].
  destruct (split sep rest) as [|piece pieces].
  { constructor; [|constructor]. simpl. by rewrite bool_decide_eq_false_2. }
  inversion_clear IH. constructor; [|done]. simpl.
  by rewrite bool_decide_eq_false_2.
Qed.

Lemma append_assoc (a b c : string) : (a +:+ b) +:+ c = a +:+ (b +:+ c).
Proof.
  induction a as [|x a IH]; [done|].
  change (String x ((a +:+ b) +:+ c) = String x (a +:+ (b +:+ c))).
  by rewrite IH.
Qed.

Lemma lstrip_eq c1 r1 :
  lstrip (String c1 r1) =
    if is_space c1 then lstrip r1
    else match r1 with
         | String c2 r2 =>
             if is_space2 c1 c2 then lstrip r2
             else match r2 with
                  | String c3 r3 =>
                      if is_space3 c1 c2 c3 then lstrip r3 else String c1 r1
                  | EmptyString => String c1 r1
                  end
         | EmptyString => String c1 r1
         end.
Proof. done. Qed.

(** [lstrip] drops the first whitespace character and goes on, or stops. *)
Lemma lstrip_unfold s :
  lstrip s = match space_prefix s with
             | Some rest => lstrip rest
             | None => s
             end.
Proof.
  destruct s as [|c1 r1]; [done|]. rewrite lstrip_eq. unfold space_prefix.
  destruct (is_space c1); [done|]. destruct r1 as [|c2 r2]; [done|].
  destruct (is_space2 c1 c2); [done|]. destruct r2 as [|c3 r3]; [done|].
  by destruct (is_space3 c1 c2 c3).
Qed.

(** A leading whitespace character is one, two or three bytes that are
    recognised whatever follows them. *)
Lemma space_prefix_split s rest :
  space_prefix s = Some rest →
  ∃ w, s = w +:+ rest
       ∧ (String.length rest < String.length s)%nat
       ∧ ∀ t, space_prefix (w +:+ t) = Some t.
Proof.
  unfold space_prefix. destruct s as [|c1 r1]; [done|].
  destruct (is_space c1) eqn:H1.
  { intros [= <-]. exists (String c1 EmptyString). split_and!; [done|simpl; lia|].
    intros t. change (space_prefix (String c1 t) = Some t).
    unfold space_prefix. by rewrite H1. }
  destruct r1 as [|c2 r2]; [done|]. destruct (is_space2 c1 c2) eqn:H2.
  { intros [= <-]. exists (String c1 (String c2 EmptyString)).
    split_and!; [done|simpl; lia|].
    intros t. change (space_prefix (String c1 (String c2 t)) = Some t).
    unfold space_prefix. by rewrite H1, H2. }
  destruct r2 as [|c3 r3]; [done|]. destruct (is_space3 c1 c2 c3) eqn:H3; [|done].
  intros [= <-]. exists (String c1 (String c2 (String c3 EmptyString))).
  split_and!; [done|simpl; lia|].
  intros t. change (space_prefix (String c1 (String c2 (String c3 t))) = Some t).
  unfold space_prefix. by rewrite H1, H2, H3.
Qed.

Lemma all_space_lstrip s : all_space s = true ↔ lstrip s = EmptyString.
Proof. unfold all_space. apply bool_decide_eq_true. Qed.

Lemma lstrip_spec s :
  ∃ pre, s = pre +:+ lstrip s ∧ all_space pre = true
         ∧ starts_with_space (lstrip s) = false.
Proof.
  remember (String.length s) as n eqn:Hn. revert s Hn.
  induction n as [n IH] using lt_wf_ind. intros s ->.
  rewrite lstrip_unfold. destruct (space_prefix s) as [rest|] eqn:Hprefix.
  - destruct (space_prefix_split _ _ Hprefix) as (w & -> & Hlen & Hw).
    destruct (IH _ Hlen rest eq_refl) as (pre & Hrest & Hpre & Hstart).
    exists (w +:+ pre). split_and!; [| |done].
    + by rewrite append_assoc, <-Hrest.
    + apply all_space_lstrip. rewrite lstrip_unfold, Hw.
      by apply all_space_lstrip.
  - exists EmptyString. split_and!; [done..|].
    unfold starts_with_space. by rewrite Hprefix.
Qed.

(** Whitespace in front of a string is stripped together with the
    whitespace the string begins with. *)
Lemma lstrip_all_space_app a b :
  all_space a = true → lstrip (a +:+ b) = lstrip b.
Proof.
  remember (String.length a) as n eqn:Hn. revert a Hn.
  induction n as [n IH] using lt_wf_ind. intros a -> Ha%all_space_lstrip.
  rewrite lstrip_unfold in Ha.
  destruct (space_prefix a) as [rest|] eqn:Hprefix; [|by subst a].
  destruct (space_prefix_split _ _ Hprefix) as (w & -> & Hlen & Hw).
  rewrite append_assoc, lstrip_unfold, Hw.
  apply (IH _ Hlen rest eq_refl). by apply all_space_lstrip.
Qed.

Lemma all_space_app a b :
  all_space a = true → all_space b = true → all_space (a +:+ b) = true.
Proof.
  intros Ha Hb%all_space_lstrip. apply all_space_lstrip.
  by rewrite lstrip_all_space_app.
Qed.

Lemma rstrip_eq c rest :
  rstrip (String c rest) =
    if all_space (String c rest) then EmptyString else String c (rstrip rest).
Proof. done. Qed.

Lemma ends_with_space_eq c rest :
  ends_with_space (String c rest) =
    all_space (String c rest) || ends_with_space rest.
Proof. done. Qed.

Lemma rstrip_spec s :
  ∃ post, s = rstrip s +:+ post ∧ all_space post = true
          ∧ ends_with_space (rstrip s) = false.
Proof.
  induction s as [|c rest (post & Hs & Hpost & Hend)].
  - by exists EmptyString.
  - rewrite rstrip_eq. destruct (all_space (String c rest)) eqn:Hall.
    + by exists (String c rest).
    + exists post. split_and!; [|done|].
      * change (String c rest = String c (rstrip rest +:+ post)).
        by rewrite <-Hs.
      * rewrite ends_with_space_eq, Hend, orb_false_r.
        destruct (all_space (String c (rstrip rest))) eqn:Hkept; [|done].
        rewrite <-Hall. symmetry.
        change (all_space (String c rest) = true).
        rewrite Hs.
        change (all_space (String c (rstrip rest) +:+ post) = true).
        by apply all_space_app.
Qed.

Lemma starts_with_space_app p t :
  starts_with_space p = true → starts_with_space (p +:+ t) = true.
Proof.
  unfold starts_with_space.
  destruct (space_prefix p) as [rest|] eqn:Hprefix; [|done]. intros _.
  destruct (space_prefix_split _ _ Hprefix) as (w & -> & _ & Hw).
  by rewrite append_assoc, Hw.
Qed.

Lemma rstrip_keeps_start s :
  starts_with_space s = false → starts_with_space (rstrip s) = false.
Proof.
  intros Hstart. destruct (rstrip_spec s) as (post & Hs & _).
  destruct (starts_with_space (rstrip s)) eqn:Hkept; [|done].
  apply (starts_with_space_app _ post) in Hkept.
  rewrite <-Hs in Hkept. congruence.
Qed.

(** [strip] cuts whitespace, and only whitespace, off both ends. *)
Lemma strip_spec s :
  ∃ pre post,
    s = pre +:+ strip s +:+ post
    ∧ all_space pre = true ∧ all_space post = true
    ∧ starts_with_space (strip s) = false
    ∧ ends_with_space (strip s) = false.
Proof.
  destruct (lstrip_spec s) as (pre & Hs & Hpre & Hstart).
  destruct (rstrip_spec (lstrip s)) as (post & Hl & Hpost & Hend).
  exists pre, post. unfold strip. rewrite <-Hl, <-Hs.
  split_and!; try done. by apply rstrip_keeps_start.
Qed.

Section facts.
Variable all_deptypes : list string.
Variable canonical_deptype : DeptypeArg → string + list string.

Local Abbreviation action := (__call__ all_deptypes canonical_deptype).

(** C6, as amended: without a value or with the empty string as value (the
    values that are false for [if values:]) the destination gets
    [dep.all_deptypes] and the canonicalizer is not called.  With a
    non-empty value, the value is cut at the
    commas and each piece is stripped; the canonicalizer is called once,
    with the string ['all'] when the pieces are exactly [('all',)] and with
    the tuple of pieces otherwise; its result goes to the destination, and
    its error is raised as it is, with nothing stored. *)
Theorem deptype_action_call dest values st :
  match values with
  | None | Some EmptyString =>
      action dest values st =
        (Returned tt,
         mkState (<[dest := NsDeptype all_deptypes]> (namespace st))
                 (canonicalizer_calls st))
  | Some text =>
      let pieces := split comma text in
      let tokens := strip <$> pieces in
      let request := if decide (tokens = ["all"]) then DStr "all"
                     else DTuple tokens in
      Registry.join "," pieces = text
      ∧ Forall (λ piece, contains comma piece = false) pieces
      ∧ Forall (λ token, starts_with_space token = false
                         ∧ ends_with_space token = false) tokens
      ∧ (tokens = ["all"] → request = DStr "all" ∧ request ≠ DTuple all_deptypes)
      ∧ match canonical_deptype request with
        | inr canonical =>
            action dest values st =
              (Returned tt,
               mkState (<[dest := NsDeptype canonical]> (namespace st))
                       (canonicalizer_calls st ++ [request]))
        | inl payload =>
            action dest values st =
              (Raised (Propagated DeptypeVocabulary payload),
               mkState (namespace st) (canonicalizer_calls st ++ [request]))
        end
  end.
Proof.
  destruct values as [[|c rest]|]; [by destruct st| |by destruct st].
  intros pieces tokens request. split_and!.
  - apply join_split.
  - apply split_pieces.
  - apply Forall_fmap, Forall_forall. intros piece _. simpl.
    destruct (strip_spec piece) as (? & ? & _ & _ & _ & ? & ?). done.
  - intros Htokens. unfold request. by rewrite decide_True.
  - unfold __call__, bind, call_canonical_deptype, all_or_tuple, tokens_of.
    fold pieces tokens request.
    by destruct (canonical_deptype request).
Qed.

End facts.

(** C6 as the specification states it fails for the empty string: given
    [--deptype=], a value was supplied, yet nothing is cut and the
    canonicalizer is not called, where cutting and stripping the empty
    string gives the tuple of one empty token, which the canonicalizer
    refuses. *)
Lemma empty_value_is_not_canonicalized :
  let st := mkState ∅ [] in
  Samples.sample_deptype_call "deptype" (Some EmptyString) st
    = (Returned tt,
       mkState {["deptype" := NsDeptype Samples.sample_deptypes]} [])
  ∧ all_or_tuple (tokens_of EmptyString) = DTuple [EmptyString]
  ∧ Samples.sample_canonical_deptype (DTuple [EmptyString])
      = inl "Invalid dependency types: ".
Proof. intros st. split_and!; reflexivity. Qed.

Lemma deptype_action_call_witness :
  let st := mkState ∅ [] in
  Samples.sample_deptype_call "deptype" (Some " link , build") st
    = (Returned tt,
       mkState {["deptype" := NsDeptype ["build"; "link"]]}
               [DTuple ["link"; "build"]])
  ∧ Samples.sample_deptype_call "deptype" (Some " all ") st
    = (Returned tt,
       mkState {["deptype" := NsDeptype Samples.sample_deptypes]} [DStr "all"])
  ∧ Samples.sample_deptype_call "deptype" (Some ("all" +:+ Samples.nbsp)) st
    = (Returned tt,
       mkState {["deptype" := NsDeptype Samples.sample_deptypes]} [DStr "all"])
  ∧ Samples.sample_deptype_call "deptype"
      (Some (Samples.em_space +:+ "link," +:+ Samples.nbsp +:+ "run")) st
    = (Returned tt,
       mkState {["deptype" := NsDeptype ["link"; "run"]]}
               [DTuple ["link"; "run"]])
  ∧ Samples.sample_deptype_call "deptype" (Some "link,fast") st
    = (Raised (Propagated DeptypeVocabulary "Invalid dependency types: fast"),
       mkState ∅ [DTuple ["link"; "fast"]])
  ∧ Samples.sample_deptype_call "deptype" None st
    = (Returned tt,
       mkState {["deptype" := NsDeptype Samples.sample_deptypes]} []).
Proof.
  intros st. unfold Samples.sample_deptype_call.
  pose proof (deptype_action_call Samples.sample_deptypes
                Samples.sample_canonical_deptype "deptype") as Hcall.
  split_and!.
  - destruct (Hcall (Some " link , build") st) as (_ & _ & _ & _ & Hrun).
    exact Hrun.
  - destruct (Hcall (Some " all ") st) as (_ & _ & _ & _ & Hrun). exact Hrun.
  - destruct (Hcall (Some ("all" +:+ Samples.nbsp)) st)
      as (_ & _ & _ & _ & Hrun).
    exact Hrun.
  - destruct (Hcall (Some (Samples.em_space +:+ "link," +:+ Samples.nbsp
                           +:+ "run")) st) as (_ & _ & _ & _ & Hrun).
    exact Hrun.
  - destruct (Hcall (Some "link,fast") st) as (_ & _ & _ & _ & Hrun).
    exact Hrun.
  - exact (Hcall None st).
Defined.

End DeptypeFacts.

(** * Further properties of the module *)

(** ** Attaching: sequencing, success, and what happens to the parser *)

Module AttachFacts.
Import Registry.

Section facts.
Context {Config : Type} `{!ConfigSystem Config}.
Context {Parser : Type} `{!ArgumentContainer Parser}.
Variable e : BuildEnv Config.

Implicit Types (registry : gmap string (@Builder Config)).

(** Attaching a concatenation is attaching the first list and then, if that
    returned, the second one to the parser it left. *)
Theorem attach_app registry l1 l2 parser :
  add_common_arguments registry e (l1 ++ l2) parser =
    (do! add_common_arguments registry e l1 in
     add_common_arguments registry e l2) parser.
Proof.
  revert parser. induction l1 as [|n l1 IH]; intros parser; [done|].
  change ((n :: l1) ++ l2) with (n :: (l1 ++ l2)).
  destruct (registry !! n) as [fn|] eqn:Hfn.
  - rewrite !(RegistryFacts.attach_cons_registered _ _ _ _ _ _ Hfn).
    unfold bind at 1.
    rewrite (RegistryFacts.attach_cons_registered _ _ _ _ _ _ Hfn).
    destruct (add_argument parser (fn e)) as [payload|p1]; [done|].
    rewrite IH. done.
  - rewrite (RegistryFacts.attach_cons_unregistered _ _ _ _ _ Hfn).
    unfold bind.
    by rewrite (RegistryFacts.attach_cons_unregistered _ _ _ _ _ Hfn).
Qed.

(** Attaching returns normally exactly when every name has a builder and
    the parser takes every bunch; the parser is then the old one with each
    bunch added in the order of the names. *)
Theorem attach_returns_iff registry names parser parser' :
  add_common_arguments registry e names parser = (Returned tt, parser') ↔
  Forall (λ n, is_Some (registry !! n)) names ∧
  add_all parser (built registry e names) = inr parser'.
Proof.
  split.
  - revert parser. induction names as [|n names IH]; intros parser Hrun.
    + injection Hrun as <-. by split.
    + destruct (registry !! n) as [fn|] eqn:Hfn.
      * rewrite (RegistryFacts.attach_cons_registered _ _ _ _ _ _ Hfn) in Hrun.
        rewrite (RegistryFacts.built_cons_registered _ _ _ _ _ Hfn).
        cbn [add_all].
        destruct (add_argument parser (fn e)) as [payload|p1]; [done|].
        destruct (IH _ Hrun). split; [constructor; eauto | done].
      * by rewrite (RegistryFacts.attach_cons_unregistered _ _ _ _ _ Hfn) in Hrun.
  - intros [Hreg Hall].
    destruct (RegistryFacts.attach_through_registered registry e names []
                parser Hreg) as [Hrun _].
    rewrite app_nil_r, Hall in Hrun. done.
Qed.

(** However attaching ends, the parser has been changed by [add_argument]
    of the bunches of a prefix of the names and by nothing else; the call
    stops at the first name without a builder (unknown-argument error) or at
    the first bunch the parser refuses (the parser's error), and ends in no
    other exception. *)
Theorem attach_stops_at_first_failure registry names parser :
  ∃ pre post,
    names = pre ++ post ∧
    Forall (λ n, is_Some (registry !! n)) pre ∧
    add_all parser (built registry e pre)
      = inr (snd (add_common_arguments registry e names parser)) ∧
    match fst (add_common_arguments registry e names parser) with
    | Returned _ => post = []
    | Raised (KeyError message) =>
        ∃ n rest, post = n :: rest ∧ registry !! n = None ∧
                  message = unknown_argument_message n
    | Raised (Propagated Argparse payload) =>
        ∃ n rest fn, post = n :: rest ∧ registry !! n = Some fn ∧
          add_argument (snd (add_common_arguments registry e names parser)) (fn e)
            = inl payload
    | Raised _ => False
    end.
Proof.
  revert parser. induction names as [|n names IH]; intros parser.
  - exists [], []. by split_and!.
  - destruct (registry !! n) as [fn|] eqn:Hfn.
    + rewrite (RegistryFacts.attach_cons_registered _ _ _ _ _ _ Hfn).
      destruct (add_argument parser (fn e)) as [payload|p1] eqn:Hadd.
      * exists [], (n :: names). split_and!; try done. simpl.
        exists n, names, fn. by split_and!.
      * destruct (IH p1) as (pre & post & -> & Hpre & Hall & Hend).
        exists (n :: pre), post. split_and!; try done.
        -- constructor; eauto.
        -- rewrite (RegistryFacts.built_cons_registered _ _ _ _ _ Hfn).
           cbn [add_all]. by rewrite Hadd.
    + rewrite (RegistryFacts.attach_cons_unregistered _ _ _ _ _ Hfn).
      exists [], (n :: names). split_and!; try done. simpl.
      exists n, names. by split_and!.
Qed.

(** Registration: [arg] makes the name attachable with the builder just
    registered, a second registration of the name replaces the first, and
    names other than the registered one attach as before. *)
Theorem arg_then_attach registry name fn0 fn names parser :
  add_common_arguments (arg name fn registry) e [name] parser
    = match add_argument parser (fn e) with
      | inr parser' => (Returned tt, parser')
      | inl payload => (Raised (Propagated Argparse payload), parser)
      end
  ∧ arg name fn (arg name fn0 registry) = arg name fn registry
  ∧ (name ∉ names →
     add_common_arguments (arg name fn registry) e names parser
       = add_common_arguments registry e names parser).
Proof.
  split_and!.
  - rewrite (RegistryFacts.attach_cons_registered _ _ name fn); [done|].
    unfold arg. apply lookup_insert_eq.
  - unfold arg. apply insert_insert_eq.
  - revert parser. induction names as [|n names IH]; intros parser Hnot; [done|].
    apply not_elem_of_cons in Hnot as [Hne Hnot].
    assert (arg name fn registry !! n = registry !! n) as Hsame
      by (unfold arg; by rewrite lookup_insert_ne).
    destruct (registry !! n) as [fn'|] eqn:Hfn.
    + rewrite (RegistryFacts.attach_cons_registered _ _ _ _ _ _ Hsame).
      rewrite (RegistryFacts.attach_cons_registered _ _ _ _ _ _ Hfn).
      destruct (add_argument parser (fn' e)); [done|]. by apply IH.
    + rewrite (RegistryFacts.attach_cons_unregistered _ _ _ _ _ Hsame).
      by rewrite (RegistryFacts.attach_cons_unregistered _ _ _ _ _ Hfn).
Qed.

End facts.

Lemma attach_returns_iff_witness :
  add_common_arguments _arguments Samples.sample_env ["jobs"; "long"]
      ([] : list Args)
    = (Returned tt, [jobs Samples.sample_env; long Samples.sample_env]).
Proof.
  apply (attach_returns_iff Samples.sample_env _arguments ["jobs"; "long"] []).
  split.
  - constructor; [|constructor; [|constructor]];
      eexists; vm_compute; reflexivity.
  - vm_compute. reflexivity.
Defined.

Lemma arg_then_attach_witness :
  add_common_arguments (arg "verbose" long _arguments) Samples.sample_env
      ["jobs"; "tags"] ([] : list Args)
    = add_common_arguments _arguments Samples.sample_env ["jobs"; "tags"]
        ([] : list Args).
Proof.
  apply (arg_then_attach Samples.sample_env _arguments "verbose" long long
           ["jobs"; "tags"] []).
  apply (bool_decide_unpack _). vm_compute. exact I.
Defined.

End AttachFacts.

(** ** The registry the module defines *)

Module RegistryTable.
Import Registry.

Section table.
Context {Config : Type} `{!ConfigSystem Config}.
Variable e : BuildEnv Config.

Local Abbreviation table :=
  [("constraint", constraint); ("package", package); ("packages", packages);
   ("spec", spec); ("specs", specs); ("installed_spec", installed_spec);
   ("installed_specs", installed_specs); ("yes_to_all", yes_to_all);
   ("recurse_dependencies", recurse_dependencies);
   ("recurse_dependents", recurse_dependents); ("clean", clean);
   ("deptype", deptype); ("dirty", dirty); ("long", long);
   ("very_long", very_long); ("tags", tags); ("jobs", jobs);
   ("install_status", install_status); ("no_checksum", no_checksum)].

Lemma registered_inv name (fn : @Builder Config) :
  _arguments !! name = Some fn → (name, fn) ∈ table.
Proof.
  unfold _arguments, arg, Builder.
  repeat (rewrite lookup_insert_Some;
          intros [[<- <-]|[_ Hrest]];
          [set_solver | revert Hrest]).
  by rewrite lookup_empty.
Qed.

Lemma table_checked :
  Forall (λ p1 : string * @Builder Config,
    flags (p1.2 e) ≠ [] ∧
    "help" ∈ (kwargs (p1.2 e)).*1 ∧
    Forall (λ p2 : string * @Builder Config,
      p2.1 ≠ p1.1 →
      Forall (λ f, f ∈ flags (p2.2 e) → f ∈ ["spec"; "specs"])
             (flags (p1.2 e))) table) table.
Proof. apply (bool_decide_unpack _). vm_compute. exact I. Qed.

(** Every registered builder yields at least one flag and a help text, and
    two different registered names share no option string: the only flags
    that occur under two names are the positionals [spec] and [specs]. *)
Theorem registry_flags name fn :
  (@_arguments Config _) !! name = Some fn →
  flags (fn e) ≠ []
  ∧ "help" ∈ (kwargs (fn e)).*1
  ∧ ∀ name' fn' f,
      name' ≠ name → (@_arguments Config _) !! name' = Some fn' →
      f ∈ flags (fn e) → f ∈ flags (fn' e) → f = "spec" ∨ f = "specs".
Proof.
  intros Hfn%registered_inv.
  pose proof table_checked as Htable.
  rewrite Forall_forall in Htable.
  destruct (Htable _ Hfn) as (Hflags & Hhelp & Hothers).
  split_and!; [done..|].
  intros name' fn' f Hne Hfn'%registered_inv Hf Hf'.
  rewrite Forall_forall in Hothers. specialize (Hothers _ Hfn' Hne).
  rewrite Forall_forall in Hothers. specialize (Hothers _ Hf Hf').
  set_solver.
Qed.

End table.

Lemma registry_flags_witness :
  flags (jobs Samples.sample_env) ≠ []
  ∧ "help" ∈ (kwargs (jobs Samples.sample_env)).*1.
Proof.
  destruct (registry_flags Samples.sample_env "jobs" jobs) as (Hflags & Hhelp & _).
  - vm_compute. reflexivity.
  - split; [exact Hflags | exact Hhelp].
Defined.

End RegistryTable.

(** ** The deferred query: outcomes, calls and what it leaves alone *)

Module DeferredQueryFacts.
Import Constraint ContainerFacts.

Section facts.
Context {QSpec Pkg Hash DB Env : Type} `{Countable Hash}.
Variable parse_specs : list string → string + list QSpec.
Variable db_query : DB → option QSpec → gmap string (Filter Hash) → list Pkg.
Variable all_hashes : Env → list Hash.
Variable dag_hash : Pkg → Hash.
Variable spec_lt : Pkg → Pkg → bool.

Implicit Types (st : State QSpec Hash DB Env) (kwargs : gmap string (Filter Hash)).

Local Abbreviation run := (_specs parse_specs db_query all_hashes dag_hash spec_lt).

Lemma specs_unset kwargs st :
  self_values st = None → run kwargs st = (Raised (AttributeError "values"), st).
Proof.
  intros Hvalues. unfold _specs, bind, read_self_values. by rewrite Hvalues.
Qed.

(** The result depends on the state only through the captured tokens, the
    environment and the database. *)
Lemma specs_same_outcome kwargs st1 st2 :
  self_values st1 = self_values st2 →
  _active_environment st1 = _active_environment st2 →
  db st1 = db st2 →
  fst (run kwargs st1) = fst (run kwargs st2).
Proof.
  intros Hvalues Henv Hdb.
  destruct (self_values st2) as [values|] eqn:Hv2.
  - destruct (parse_specs values) as [payload|qspecs] eqn:Hparse.
    + rewrite (ConstraintFacts.specs_parse_error parse_specs db_query all_hashes
                 dag_hash spec_lt kwargs st1 values payload Hvalues Hparse).
      by rewrite (ConstraintFacts.specs_parse_error parse_specs db_query
                    all_hashes dag_hash spec_lt kwargs st2 values payload Hv2 Hparse).
    + rewrite (ConstraintFacts.specs_run parse_specs db_query all_hashes
                 dag_hash spec_lt kwargs st1 values qspecs Hvalues Hparse).
      rewrite (ConstraintFacts.specs_run parse_specs db_query all_hashes
                 dag_hash spec_lt kwargs st2 values qspecs Hv2 Hparse).
      rewrite Henv, Hdb. by destruct qspecs.
  - by rewrite !specs_unset.
Qed.

(** The callable ends in one of three ways: it returns, when the action
    has fired and the parser accepts its tokens; it raises
    [AttributeError] for [values], when the action never fired, having
    called nothing; or it raises the parser's error, having called the
    parser once and the database not at all.  It raises nothing else. *)
Theorem specs_outcomes kwargs st :
  match fst (_specs parse_specs db_query all_hashes dag_hash spec_lt kwargs st)
  with
  | Returned _ =>
      ∃ values qspecs,
        self_values st = Some values ∧ parse_specs values = inr qspecs
  | Raised (AttributeError attribute) =>
      attribute = "values" ∧ self_values st = None ∧ snd (run kwargs st) = st
  | Raised (Propagated SpecParser payload) =>
      ∃ values,
        self_values st = Some values ∧ parse_specs values = inl payload ∧
        calls (snd (run kwargs st)) = calls st ++ [CallParseSpecs values]
  | Raised _ => False
  end.
Proof.
  destruct (self_values st) as [values|] eqn:Hvalues.
  - destruct (parse_specs values) as [payload|qspecs] eqn:Hparse.
    + rewrite (ConstraintFacts.specs_parse_error parse_specs db_query all_hashes
                 dag_hash spec_lt kwargs st values payload Hvalues Hparse).
      simpl. eauto.
    + rewrite (ConstraintFacts.specs_run parse_specs db_query all_hashes
                 dag_hash spec_lt kwargs st values qspecs Hvalues Hparse).
      destruct qspecs; simpl; eauto.
  - rewrite (specs_unset _ _ Hvalues). by simpl.
Qed.

(** An invocation changes nothing but the record of calls: the captured
    tokens, the namespace, the environment and the database are as before,
    so invoking again, with any filters, ends as it would have ended the
    first time. *)
Theorem specs_only_logs kwargs st :
  let st' := snd (_specs parse_specs db_query all_hashes dag_hash spec_lt
                         kwargs st) in
  self_values st' = self_values st
  ∧ namespace st' = namespace st
  ∧ _active_environment st' = _active_environment st
  ∧ db st' = db st
  ∧ ∀ kwargs', fst (run kwargs' st') = fst (run kwargs' st).
Proof.
  intros st'.
  assert (self_values st' = self_values st
          ∧ namespace st' = namespace st
          ∧ _active_environment st' = _active_environment st
          ∧ db st' = db st) as (Hv & Hn & He & Hd).
  { unfold st'. destruct (self_values st) as [values|] eqn:Hvalues.
    - destruct (parse_specs values) as [payload|qspecs] eqn:Hparse.
      + by rewrite (ConstraintFacts.specs_parse_error parse_specs db_query
                      all_hashes dag_hash spec_lt kwargs st values payload
                      Hvalues Hparse).
      + rewrite (ConstraintFacts.specs_run parse_specs db_query all_hashes
                   dag_hash spec_lt kwargs st values qspecs Hvalues Hparse).
        by destruct qspecs.
    - by rewrite (specs_unset _ _ Hvalues). }
  split_and!; try done.
  intros kwargs'. by apply specs_same_outcome.
Qed.

(** With tokens the parser accepts, the parser is called once, and then
    the database: once without a query spec when there is none, and
    otherwise once per query spec, in the order of the query specs and
    again for a query spec that occurs again.  Every query carries the same
    filters, which without an active environment are the caller's. *)
Theorem specs_one_query_per_spec kwargs st values qspecs :
  self_values st = Some values →
  parse_specs values = inr qspecs →
  let filters := env_kwargs all_hashes (_active_environment st) kwargs in
  calls (snd (run kwargs st)) =
    calls st ++ CallParseSpecs values ::
      match qspecs with
      | [] => [CallQuery None filters]
      | _ :: _ => (λ q, CallQuery (Some q) filters) <$> qspecs
      end
  ∧ (_active_environment st = None → filters = kwargs).
Proof.
  intros Hvalues Hparse filters. split.
  - rewrite (ConstraintFacts.specs_run parse_specs db_query all_hashes
               dag_hash spec_lt kwargs st values qspecs Hvalues Hparse).
    by destruct qspecs.
  - intros Henv. unfold filters. by rewrite Henv.
Qed.

(** Firing the action again replaces what the first firing left: the state
    is the one a single firing with the later tokens gives, so the callable
    handed out earlier works on the later tokens.  Entries of the namespace
    other than [constraint] and [specs] are not touched. *)
Theorem call_last_wins values1 values2 st :
  snd (__call__ values2 (snd (__call__ values1 st))) = snd (__call__ values2 st)
  ∧ (∀ kwargs,
       run kwargs (snd (__call__ values2 (snd (__call__ values1 st))))
       = run kwargs (snd (__call__ values2 st)))
  ∧ ∀ key, key ≠ "constraint" → key ≠ "specs" →
      namespace (snd (__call__ values1 st)) !! key = namespace st !! key.
Proof.
  assert (snd (__call__ values2 (snd (__call__ values1 st)))
          = snd (__call__ values2 st)) as Hsame.
  { unfold __call__, bind, modify, set_self_values, set_namespace. simpl.
    f_equal. apply map_eq. intros key.
    destruct (decide (key = "specs")) as [->|Hspecs];
      [by rewrite !lookup_insert_eq|].
    destruct (decide (key = "constraint")) as [->|Hconstraint].
    { rewrite !(lookup_insert_ne _ "specs" "constraint") by done.
      by rewrite !lookup_insert_eq. }
    by repeat (rewrite lookup_insert_ne by done). }
  split_and!; [done| |].
  - intros kwargs. by rewrite Hsame.
  - intros key Hconstraint Hspecs. simpl.
    rewrite lookup_insert_ne by done. by rewrite lookup_insert_ne.
Qed.

End facts.

(** *** The order of the constraint expressions *)

Lemma Sorted_StronglySorted_on {A} (R : relation A) (P : A → Prop) (l : list A) :
  (∀ a b c, P a → P b → P c → R a b → R b c → R a c) →
  Forall P l → Sorted R l → StronglySorted R l.
Proof.
  intros Htrans HP Hs. induction Hs as [|x l Hs IH Hhd]; [constructor|].
  apply Forall_cons in HP as [Hx HP]. specialize (IH HP).
  constructor; [done|].
  destruct Hhd as [|y l Hxy]; [constructor|].
  apply StronglySorted_inv in IH as [_ Hy].
  apply Forall_cons in HP as [HPy HP].
  constructor; [done|]. apply Forall_forall. intros z Hz.
  rewrite Forall_forall in Hy, HP. eapply (Htrans x y z); eauto.
Qed.

Section order.
Context {QSpec Pkg Hash DB Env : Type} `{Countable Hash}.
Variable parse_specs : list string → string + list QSpec.
Variable db_query : DB → option QSpec → gmap string (Filter Hash) → list Pkg.
Variable all_hashes : Env → list Hash.
Variable dag_hash : Pkg → Hash.
Variable spec_lt : Pkg → Pkg → bool.
Variable database : DB.
Variable filters : gmap string (Filter Hash).

Local Abbreviation answered s := (∃ q, s ∈ db_query database (Some q) filters).
Local Abbreviation collected qspecs :=
  (matches_by_hash db_query dag_hash database qspecs filters []).

Hypothesis hash_identifies :
  ∀ a b, answered a → answered b → dag_hash a = dag_hash b → a = b.

Lemma collected_keys qspecs : dag_hash <$> (collected qspecs).*2 = (collected qspecs).*1.
Proof.
  assert (Forall (λ kv : Hash * Pkg, kv.1 = dag_hash kv.2) (collected qspecs))
    as Hkeyed by (apply ConstraintFacts.matches_by_hash_keyed; constructor).
  revert Hkeyed. generalize (collected qspecs). intros d Hkeyed.
  induction Hkeyed as [|[h s] d Hhs _ IH]; [done|].
  cbn [fmap list_fmap fst snd] in *. by f_equal.
Qed.

Lemma collected_answered qspecs s :
  s ∈ (collected qspecs).*2 →
  ∃ q, q ∈ qspecs ∧ s ∈ db_query database (Some q) filters.
Proof.
  intros (kv & -> & Hkv)%list_elem_of_fmap.
  apply (ConstraintFacts.matches_by_hash_entries _ _ spec_lt) in Hkv
    as [Hkv|Hkv]; [|done].
  by apply elem_of_nil in Hkv.
Qed.

Lemma collected_NoDup qspecs : NoDup (collected qspecs).*2.
Proof.
  apply (NoDup_fmap_1 dag_hash). rewrite collected_keys.
  apply ConstraintFacts.matches_by_hash_NoDup. constructor.
Qed.

Lemma collected_mono qspecs1 qspecs2 s :
  (∀ q, q ∈ qspecs1 → q ∈ qspecs2) →
  s ∈ (collected qspecs1).*2 → s ∈ (collected qspecs2).*2.
Proof.
  intros Hsub (q & Hq & Hs)%collected_answered.
  assert (dag_hash s ∈ (collected qspecs2).*1) as Hkey
    by (eapply ConstraintFacts.matches_by_hash_covers; eauto).
  rewrite <-collected_keys in Hkey.
  apply list_elem_of_fmap in Hkey as (s' & Hhash & Hs').
  destruct (collected_answered _ _ Hs') as (q' & _ & Hanswer).
  assert (s = s') as -> by (apply hash_identifies; eauto).
  done.
Qed.

Hypothesis lt_asym : ∀ a b, spec_lt a b = true → spec_lt b a = false.
Hypothesis le_trans :
  ∀ a b c, answered a → answered b → answered c →
    spec_lt b a = false → spec_lt c b = false → spec_lt c a = false.
Hypothesis le_antisym :
  ∀ a b, answered a → answered b →
    spec_lt b a = false → spec_lt a b = false → a = b.

Lemma sorted_collected_same qspecs1 qspecs2 :
  (∀ q, q ∈ qspecs1 ↔ q ∈ qspecs2) →
  sorted spec_lt (dict_values (collected qspecs1))
  = sorted spec_lt (dict_values (collected qspecs2)).
Proof.
  intros Hsame.
  assert ((collected qspecs1).*2 ≡ₚ (collected qspecs2).*2) as Hperm.
  { apply NoDup_Permutation; [apply collected_NoDup..|].
    intros s. split; apply collected_mono; intros q; apply Hsame. }
  assert (∀ qspecs, Forall (λ s, answered s)
                      (sorted spec_lt (dict_values (collected qspecs))))
    as Hanswered.
  { intros qspecs. apply Forall_forall. intros s Hs.
    rewrite sorted_perm in Hs.
    destruct (collected_answered _ _ Hs) as (q & _ & ?). eauto. }
  assert (∀ qspecs, StronglySorted (λ a b, spec_lt b a = false)
                      (sorted spec_lt (dict_values (collected qspecs))))
    as Hsorted.
  { intros qspecs.
    apply (Sorted_StronglySorted_on _ (λ s, answered s)); [|done|].
    - intros a b c ?????. by eapply (le_trans a b c).
    - by apply sorted_Sorted. }
  apply (StronglySorted_unique_strong (λ a b, spec_lt b a = false));
    [|done..|].
  - intros x1 x2 Hx1 Hx2 H12 H21.
    pose proof (Hanswered qspecs1) as Ha1. pose proof (Hanswered qspecs2) as Ha2.
    rewrite Forall_forall in Ha1, Ha2. by apply le_antisym; eauto.
  - by rewrite !sorted_perm.
Qed.

(** The result does not depend on the order of the constraint expressions
    or on repeating one: when the [<] of the packages the database answers
    with is a total order on them and their hash identifies them, two
    captured token lists that parse into the same set of query specs give
    the same result, against the same database and environment. *)
Theorem specs_order_irrelevant kwargs values1 values2 qspecs1 qspecs2
    (st1 st2 : State QSpec Hash DB Env) :
  self_values st1 = Some values1 → parse_specs values1 = inr qspecs1 →
  self_values st2 = Some values2 → parse_specs values2 = inr qspecs2 →
  db st1 = database → db st2 = database →
  env_kwargs all_hashes (_active_environment st1) kwargs = filters →
  env_kwargs all_hashes (_active_environment st2) kwargs = filters →
  (∀ q, q ∈ qspecs1 ↔ q ∈ qspecs2) →
  fst (_specs parse_specs db_query all_hashes dag_hash spec_lt kwargs st1)
  = fst (_specs parse_specs db_query all_hashes dag_hash spec_lt kwargs st2).
Proof.
  intros Hv1 Hp1 Hv2 Hp2 Hdb1 Hdb2 Hf1 Hf2 Hsame.
  rewrite (ConstraintFacts.specs_run parse_specs db_query all_hashes dag_hash
             spec_lt kwargs st1 values1 qspecs1 Hv1 Hp1).
  rewrite (ConstraintFacts.specs_run parse_specs db_query all_hashes dag_hash
             spec_lt kwargs st2 values2 qspecs2 Hv2 Hp2).
  rewrite Hdb1, Hdb2, Hf1, Hf2.
  destruct qspecs1 as [|q1 qspecs1], qspecs2 as [|q2 qspecs2]; cbn [fst].
  - done.
  - exfalso. eapply elem_of_nil, (proj2 (Hsame q2)). by left.
  - exfalso. eapply elem_of_nil, (proj1 (Hsame q1)). by left.
  - f_equal.
    by apply (sorted_collected_same (q1 :: qspecs1) (q2 :: qspecs2)).
Qed.

End order.

(** *** On the sample database *)

Lemma sample_answered s :
  (∃ q, s ∈ Samples.sample_query Samples.three_installed (Some q) ∅) →
  s = Samples.zlib ∨ s = Samples.zstd ∨ s = Samples.cmake.
Proof.
  intros (q & Hs). unfold Samples.sample_query in Hs.
  apply list_elem_of_filter in Hs as [_ Hs].
  unfold Samples.three_installed in Hs. set_solver.
Qed.

Lemma sample_hash_identifies a b :
  (∃ q, a ∈ Samples.sample_query Samples.three_installed (Some q) ∅) →
  (∃ q, b ∈ Samples.sample_query Samples.three_installed (Some q) ∅) →
  Samples.spec_hash a = Samples.spec_hash b → a = b.
Proof.
  intros [->|[->| ->]]%sample_answered [->|[->| ->]]%sample_answered;
    by vm_compute.
Qed.

Lemma sample_le_trans a b c :
  (∃ q, a ∈ Samples.sample_query Samples.three_installed (Some q) ∅) →
  (∃ q, b ∈ Samples.sample_query Samples.three_installed (Some q) ∅) →
  (∃ q, c ∈ Samples.sample_query Samples.three_installed (Some q) ∅) →
  Samples.installed_lt b a = false → Samples.installed_lt c b = false →
  Samples.installed_lt c a = false.
Proof.
  intros [->|[->| ->]]%sample_answered [->|[->| ->]]%sample_answered
         [->|[->| ->]]%sample_answered; by vm_compute.
Qed.

Lemma sample_le_antisym a b :
  (∃ q, a ∈ Samples.sample_query Samples.three_installed (Some q) ∅) →
  (∃ q, b ∈ Samples.sample_query Samples.three_installed (Some q) ∅) →
  Samples.installed_lt b a = false → Samples.installed_lt a b = false → a = b.
Proof.
  intros [->|[->| ->]]%sample_answered [->|[->| ->]]%sample_answered;
    by vm_compute.
Qed.

Lemma specs_order_irrelevant_witness :
  fst (Samples.sample_specs ∅ (Samples.constraint_state (Some ["z"; "c"]) None))
  = fst (Samples.sample_specs ∅
           (Samples.constraint_state (Some ["c"; "z"; "c"]) None)).
Proof.
  unfold Samples.sample_specs.
  apply (specs_order_irrelevant Samples.sample_parse_specs Samples.sample_query
           Samples.sample_all_hashes Samples.spec_hash Samples.installed_lt
           Samples.three_installed ∅
           sample_hash_identifies ConstraintFacts.installed_lt_asym
           sample_le_trans sample_le_antisym
           ∅ ["z"; "c"] ["c"; "z"; "c"] ["z"; "c"] ["c"; "z"; "c"]);
    try reflexivity.
  intros q. rewrite !elem_of_cons, !elem_of_nil. tauto.
Defined.

Lemma specs_one_query_per_spec_witness :
  calls (snd (Samples.sample_specs ∅
                (Samples.constraint_state (Some ["z"; "z"]) None)))
  = [CallParseSpecs ["z"; "z"]; CallQuery (Some "z") ∅; CallQuery (Some "z") ∅].
Proof.
  unfold Samples.sample_specs.
  apply (specs_one_query_per_spec Samples.sample_parse_specs
           Samples.sample_query Samples.sample_all_hashes Samples.spec_hash
           Samples.installed_lt ∅
           (Samples.constraint_state (Some ["z"; "z"]) None)
           ["z"; "z"] ["z"; "z"] eq_refl eq_refl).
Defined.

End DeferredQueryFacts.

(** ** The job count: range, read-back and the unchecked default *)

Module ClampFacts.
Import Jobs.

Section facts.
Context {Config : Type} `{!ConfigSystem Config}.
Implicit Types (st : @State Config).

(** On a machine that reports at least one processor, an accepted job
    count is stored as a value between 1 and the processor count that does
    not exceed the request and equals it when the request fits; submitting
    the stored value again stores it again; no other entry of the namespace
    and not the processor count is touched. *)
Theorem accepted_jobs_in_range jobs option_string st :
  1 ≤ jobs → 1 ≤ cpu_count st →
  let st' := snd (__call__ jobs option_string st) in
  ∃ stored,
    namespace st' !! "jobs" = Some (NsInt stored)
    ∧ 1 ≤ stored ≤ cpu_count st
    ∧ stored ≤ jobs
    ∧ (jobs ≤ cpu_count st → stored = jobs)
    ∧ namespace (snd (__call__ stored option_string st')) !! "jobs"
        = Some (NsInt stored)
    ∧ cpu_count st' = cpu_count st
    ∧ ∀ key, key ≠ "jobs" → namespace st' !! key = namespace st !! key.
Proof.
  intros Hjobs Hcpu st'. exists (Z.min jobs (cpu_count st)). unfold st'.
  rewrite (JobsFacts.call_accepted _ _ _ Hjobs). cbn [snd namespace cpu_count].
  split_and!; try lia.
  - by rewrite lookup_insert_eq.
  - rewrite JobsFacts.call_accepted by lia. cbn [snd namespace cpu_count].
    rewrite lookup_insert_eq. do 2 f_equal. lia.
  - intros key Hkey. by rewrite lookup_insert_ne.
Qed.

(** When a value written to the [command_line] scope is what a later read
    of the same path returns, the default read after an accepted job count
    is the value that was stored on the namespace. *)
Theorem default_after_call jobs option_string st :
  (∀ (c : Config) v,
     config_get_int (config_set_int c "config:build_jobs" v "command_line")
                    "config:build_jobs" 16 = v) →
  1 ≤ jobs →
  let st' := snd (__call__ jobs option_string st) in
  fst (default st') = Returned (Z.min jobs (cpu_count st))
  ∧ namespace st' !! "jobs" = Some (NsInt (Z.min jobs (cpu_count st))).
Proof.
  intros Hlaw Hjobs st'. unfold st'.
  rewrite (JobsFacts.call_accepted _ _ _ Hjobs). cbn [snd].
  split; [|cbn [namespace]; by rewrite lookup_insert_eq].
  unfold default, bind, spack_config_get, call_cpu_count, ret.
  cbn [fst config cpu_count]. rewrite Hlaw. f_equal. lia.
Qed.

(** The default is not checked the way an explicit job count is: when the
    configured number of jobs or the processor count is below 1, the
    default is a value below 1, which the action would refuse if it were
    given on the command line. *)
Theorem default_not_validated option_string st :
  config_get_int (config st) "config:build_jobs" 16 < 1 ∨ cpu_count st < 1 →
  ∃ value,
    fst (default st) = Returned value
    ∧ value < 1
    ∧ fst (__call__ value option_string st)
        = Raised (ValueError (invalid_jobs_message option_string value)).
Proof.
  intros Hlow.
  exists (Z.min (config_get_int (config st) "config:build_jobs" 16) (cpu_count st)).
  split_and!; [done | lia |].
  rewrite JobsFacts.call_rejected; [done | lia].
Qed.

End facts.

Lemma layered_command_line_read_back (c : Samples.LayeredConfig) v :
  config_get_int (config_set_int c "config:build_jobs" v "command_line")
                 "config:build_jobs" 16 = v.
Proof.
  cbn [config_get_int config_set_int Samples.LayeredConfig_system
       Samples.int_values Samples.scope_priority Samples.first_scope].
  by rewrite lookup_insert_eq.
Qed.

Lemma accepted_jobs_in_range_witness :
  ∃ stored,
    namespace (snd (__call__ 999 "--jobs" (Samples.jobs_state 8))) !! "jobs"
      = Some (NsInt stored)
    ∧ 1 ≤ stored ≤ 8.
Proof.
  destruct (accepted_jobs_in_range 999 "--jobs" (Samples.jobs_state 8))
    as (stored & Hstored & Hrange & _); [lia | simpl; lia |].
  exists stored. split; [exact Hstored | exact Hrange].
Defined.

Lemma default_after_call_witness :
  fst (default (snd (__call__ 3 "-j" (Samples.jobs_state 8)))) = Returned 3.
Proof.
  apply (default_after_call 3 "-j" (Samples.jobs_state 8)
           layered_command_line_read_back).
  lia.
Defined.

Lemma default_not_validated_witness :
  ∃ value,
    fst (default (mkState (Samples.mkConfig
                             {[("user", "config:build_jobs") := 0]} None) ∅ 8))
      = Returned value
    ∧ value < 1.
Proof.
  destruct (default_not_validated "-j"
              (mkState (Samples.mkConfig
                          {[("user", "config:build_jobs") := 0]} None) ∅ 8))
    as (value & Hvalue & Hlow & _).
  - left. vm_compute. reflexivity.
  - exists value. split; [exact Hvalue | exact Hlow].
Defined.

End ClampFacts.

(** ** The dependency-type tokens *)

Module TokenFacts.
Import Deptype.

Lemma contains_app c s t :
  contains c (s +:+ t) = contains c s || contains c t.
Proof.
  induction s as [|c' s IH]; [done|].
  change (String c' s +:+ t) with (String c' (s +:+ t)).
  cbn [contains]. rewrite IH. by rewrite orb_assoc.
Qed.

Lemma lstrip_id s : starts_with_space s = false → lstrip s = s.
Proof.
  unfold starts_with_space. rewrite DeptypeFacts.lstrip_unfold.
  by destruct (space_prefix s).
Qed.

Lemma rstrip_id s : ends_with_space s = false → rstrip s = s.
Proof.
  induction s as [|c rest IH]; [done|].
  rewrite DeptypeFacts.ends_with_space_eq, DeptypeFacts.rstrip_eq.
  intros [Hall Hend]%orb_false_elim. rewrite Hall. by rewrite IH.
Qed.

Lemma lstrip_all_space s : all_space s = true → lstrip s = EmptyString.
Proof. apply DeptypeFacts.all_space_lstrip. Qed.

Lemma split_no_sep sep s : contains sep s = false → split sep s = [s].
Proof.
  induction s as [|c rest IH]; [done|]. cbn [contains split].
  intros [Hc Hrest]%orb_false_elim.
  apply bool_decide_eq_false in Hc. rewrite decide_False by done.
  by rewrite IH.
Qed.

Lemma split_app_sep sep s t :
  contains sep s = false →
  split sep (s +:+ String sep t) = s :: split sep t.
Proof.
  induction s as [|c rest IH].
  - intros _. change (EmptyString +:+ String sep t) with (String sep t).
    cbn [split]. by rewrite decide_True.
  - cbn [contains]. intros [Hc Hrest]%orb_false_elim.
    apply bool_decide_eq_false in Hc.
    change (String c rest +:+ String sep t)
      with (String c (rest +:+ String sep t)).
    cbn [split]. rewrite decide_False by done. by rewrite IH.
Qed.

Lemma split_length sep s : length (split sep s) = S (count_char sep s).
Proof.
  induction s as [|c rest IH]; [done|]. cbn [split count_char].
  destruct (decide (c = sep)); [cbn [length]; by rewrite IH|].
  destruct (split sep rest) as [|piece pieces]; simpl in *; lia.
Qed.

Lemma count_char_zero c s : count_char c s = 0%nat ↔ contains c s = false.
Proof.
  induction s as [|c' rest IH]; [done|]. cbn [count_char contains].
  destruct (decide (c' = c)) as [->|Hne].
  - rewrite bool_decide_eq_true_2 by done. simpl. split; [lia|done].
  - rewrite bool_decide_eq_false_2 by done. simpl. done.
Qed.

(** [strip] leaves a stripped string alone, changes nothing exactly when
    there is no whitespace at either end, and yields the empty string
    exactly for the strings made of whitespace only, the empty one among
    them. *)
Theorem strip_fixed_points s :
  strip (strip s) = strip s
  ∧ (strip s = s ↔ starts_with_space s = false ∧ ends_with_space s = false)
  ∧ (strip s = EmptyString ↔ all_space s = true).
Proof.
  assert (∀ t, starts_with_space t = false → ends_with_space t = false →
               strip t = t) as Hid.
  { intros t Hstart Hend. unfold strip. rewrite (lstrip_id _ Hstart).
    by apply rstrip_id. }
  destruct (DeptypeFacts.strip_spec s)
    as (pre & post & Hs & Hpre & Hpost & Hstart & Hend).
  split_and!.
  - by apply Hid.
  - split; [intros <-; by split | intros [? ?]; by apply Hid].
  - split.
    + intros Hempty. rewrite Hs, Hempty.
      apply DeptypeFacts.all_space_app; [done|].
      by apply DeptypeFacts.all_space_app.
    + intros Hall. unfold strip. by rewrite lstrip_all_space.
Qed.

Lemma tokens_no_comma values :
  Forall (λ token, contains comma token = false) (tokens_of values).
Proof.
  unfold tokens_of.
  apply Forall_fmap. eapply Forall_impl; [apply DeptypeFacts.split_pieces|].
  intros piece Hpiece. simpl.
  destruct (DeptypeFacts.strip_spec piece) as (pre & post & Hs & _).
  rewrite Hs, !contains_app in Hpiece.
  apply orb_false_elim in Hpiece as [_ Hpiece].
  by apply orb_false_elim in Hpiece as [Hpiece _].
Qed.

Lemma tokens_stripped values :
  Forall (λ token, starts_with_space token = false
                   ∧ ends_with_space token = false) (tokens_of values).
Proof.
  unfold tokens_of. apply Forall_fmap, Forall_forall. intros piece _. simpl.
  by destruct (DeptypeFacts.strip_spec piece) as (? & ? & _ & _ & _ & ? & ?).
Qed.

Lemma join_then_cut names :
  names ≠ [] →
  Forall (λ name, contains comma name = false
                  ∧ starts_with_space name = false
                  ∧ ends_with_space name = false) names →
  tokens_of (Registry.join "," names) = names.
Proof.
  intros Hne Hnames. unfold tokens_of.
  assert (split comma (Registry.join "," names) = names) as ->.
  { destruct names as [|name names]; [done|]. clear Hne.
    revert name Hnames. induction names as [|name' names IH]; intros name Hnames.
    - apply Forall_cons in Hnames as [[Hcomma _] _]. by apply split_no_sep.
    - apply Forall_cons in Hnames as [[Hcomma _] Hrest].
      change (Registry.join "," (name :: name' :: names))
        with (name +:+ String comma (Registry.join "," (name' :: names))).
      rewrite (split_app_sep _ _ _ Hcomma). by rewrite IH. }
  clear Hne. induction Hnames as [|name names (_ & Hstart & Hend) _ IH]; [done|].
  cbn [fmap list_fmap] in *. rewrite IH. f_equal.
  unfold strip. rewrite (lstrip_id _ Hstart). by apply rstrip_id.
Qed.

(** The value is cut into one token more than it has commas, so there is
    always at least one token and empty pieces are kept as empty tokens; no
    token holds a comma. *)
Theorem tokens_count values :
  length (tokens_of values) = S (count_char comma values)
  ∧ Forall (λ token, contains comma token = false) (tokens_of values).
Proof.
  split; [|apply tokens_no_comma].
  unfold tokens_of. by rewrite length_fmap, split_length.
Qed.

(** The request is the string ['all'] exactly when the value has no comma
    and is [all] with whitespace around it at most: [all,] and [all,all]
    are tuples, to be judged by the canonicalizer. *)
Theorem all_sentinel_iff values :
  all_or_tuple (tokens_of values) = DStr "all"
  ↔ contains comma values = false ∧ strip values = "all".
Proof.
  unfold all_or_tuple, tokens_of. split.
  - case_decide as Htokens; [|done]. intros _.
    assert (count_char comma values = 0%nat) as Hcount.
    { pose proof (split_length comma values) as Hlen.
      apply (f_equal length) in Htokens.
      rewrite length_fmap, Hlen in Htokens. simpl in Htokens. lia. }
    apply count_char_zero in Hcount. split; [done|].
    rewrite (split_no_sep _ _ Hcount) in Htokens. by injection Htokens.
  - intros [Hcomma Hstrip]. rewrite (split_no_sep _ _ Hcomma).
    cbn [fmap list_fmap]. rewrite Hstrip. by rewrite decide_True.
Qed.

(** Cutting at the commas undoes joining with commas: a non-empty list of
    names without commas and without whitespace at their ends, joined the
    way the help text of [--deptype] shows the default, is cut back into
    the same list. *)
Theorem tokens_of_join names :
  names ≠ [] →
  Forall (λ name, contains comma name = false
                  ∧ starts_with_space name = false
                  ∧ ends_with_space name = false) names →
  tokens_of (Registry.join "," names) = names.
Proof. apply join_then_cut. Qed.

(** Cutting is a normalisation: the tokens of a value, joined with commas
    and cut again, are the same tokens. *)
Theorem tokens_of_idempotent values :
  tokens_of (Registry.join "," (tokens_of values)) = tokens_of values.
Proof.
  apply join_then_cut.
  - intros Hnil. apply (f_equal length) in Hnil. unfold tokens_of in Hnil.
    rewrite length_fmap, split_length in Hnil. discriminate.
  - pose proof (tokens_no_comma values) as Hcomma.
    pose proof (tokens_stripped values) as Hstripped.
    rewrite Forall_forall in Hcomma, Hstripped. apply Forall_forall.
    intros token Htoken. destruct (Hstripped _ Htoken). split_and!; auto.
Qed.

Lemma all_sentinel_iff_witness :
  all_or_tuple (tokens_of " all ") = DStr "all"
  ∧ all_or_tuple (tokens_of ("all" +:+ Samples.nbsp)) = DStr "all"
  ∧ contains comma "all," = true.
Proof.
  split_and!.
  - apply (all_sentinel_iff " all "). split; vm_compute; reflexivity.
  - apply (all_sentinel_iff ("all" +:+ Samples.nbsp)).
    split; vm_compute; reflexivity.
  - vm_compute. reflexivity.
Defined.

Lemma tokens_of_join_witness :
  tokens_of (Registry.join "," Samples.sample_deptypes) = Samples.sample_deptypes.
Proof.
  apply (tokens_of_join Samples.sample_deptypes).
  - discriminate.
  - repeat constructor.
Defined.

End TokenFacts.
